(** * tinycrypto: the Keyset of github.com/bitdabbler/tinycrypto (crypto.go)

    A shallow embedding of the package's key-rotation logic.

    - A [*Key] is a pointer: keysets hold pointers into a store of [Key]
      objects, so that two slots of a keyset (or a slot and the argument of
      [RotateIn]) may denote the same object.
    - A nil dereference is a run-time panic; operations that can panic return
      [option], with [None] for the panic.
    - [time.Now()] is an explicit argument of every operation that reads the
      clock.
    - The Go standard library (crypto/aes, crypto/cipher, crypto/rand) is not
      part of the package: its operations are the fields of the class
      [GoCrypto], and what the package relies on is the class [GoCryptoLaws].
    - The mutex of the Keyset is not modelled: every operation runs alone. *)

From Stdlib Require Import ZArith String.
From stdpp Require Import base option list gmap strings.

Local Open Scope Z_scope.

(** ** Bytes, errors and results *)

Definition byte := Byte.byte.
Definition bytes := list byte.

#[global] Instance byte_eq_dec : EqDecision byte := Byte.byte_eq_dec.

#[global] Instance nat_gt_dec : RelDecision gt := λ x y, decide (y < x)%nat.

(** An [error] value: one made by this package with [errors.New], the
    [aes.KeySizeError] of crypto/aes, or any other error of the standard
    library, kept by its message. *)
Inductive error : Type :=
| errors_New (msg : string)
| KeySizeError (n : nat)
| lib_error (msg : string).

(** A Go result pair [(T, error)]: exactly one of the two is meaningful. *)
Inductive result (A : Type) : Type :=
| Ok (a : A)
| Err (e : error).
Arguments Ok {A} a.
Arguments Err {A} e.

Definition is_Ok {A} (r : result A) : Prop := ∃ a, r = Ok a.

(** ** package time *)

Module time.
(** A [time.Time], as the number of nanoseconds since the Unix epoch, and a
    [time.Duration], a number of nanoseconds. *)
Definition Time := Z.
Definition Duration := Z.

Definition Second : Duration := 1000000000.
Definition Hour : Duration := 3600 * Second.

(** [t.Add(d)] *)
Definition Add (t : Time) (d : Duration) : Time := t + d.

(** [t.Unix()]: whole seconds since the epoch, rounded down. *)
Definition Unix (t : Time) : Z := t `div` Second.
End time.

(** ** The standard library's cipher and random source *)

(** [rand.Reader] as one call of [io.ReadFull] sees it: its error, or the
    stream of bytes it delivers. *)
Definition entropy : Type := error + (nat → byte).

Definition io_ReadFull (rnd : entropy) (n : nat) : result bytes :=
  match rnd with
  | inl e => Err e
  | inr f => Ok (f <$> seq 0 n)
  end.

Class GoCrypto : Type := {
  Block : Type;
  AEAD : Type;
  (** [aes.NewCipher(key)] *)
  aes_NewCipher : bytes → result Block;
  (** [cipher.NewGCM(c)] *)
  cipher_NewGCM : Block → result AEAD;
  (** [gcm.NonceSize()] *)
  NonceSize : AEAD → nat;
  (** [gcm.Seal(nil, nonce, plaintext, nil)] *)
  Seal : AEAD → bytes → bytes → bytes;
  (** [gcm.Open(nil, nonce, ciphertext, nil)] *)
  Open : AEAD → bytes → bytes → result bytes;
}.

(** What the standard library documents and the package relies on. *)
Class GoCryptoLaws (C : GoCrypto) : Prop := {
  (** [aes.NewCipher] takes keys of 16, 24 or 32 bytes and answers any other
      length with [KeySizeError]. *)
  NewCipher_size_ok key :
    length key ∈ [16; 24; 32]%nat → is_Ok (aes_NewCipher key);
  NewCipher_size_bad key :
    length key ∉ [16; 24; 32]%nat →
    aes_NewCipher key = Err (KeySizeError (length key));
  (** [cipher.NewGCM] accepts every AES block cipher. *)
  NewGCM_ok c : is_Ok (cipher_NewGCM c);
  (** Opening what was sealed, with the same nonce, gives the plaintext. *)
  Open_Seal g nonce plaintext :
    Open g nonce (Seal g nonce plaintext) = Ok plaintext;
}.

(** ** Encrypt and Decrypt (crypto.go, lines 31-63) *)

Section Primitive.
Context `{C : GoCrypto}.

Definition Encrypt (rnd : entropy) (val key : bytes) : result bytes :=
  match aes_NewCipher key with
  | Err err => Err err
  | Ok c =>
      match cipher_NewGCM c with
      | Err err => Err err
      | Ok gcm =>
          match io_ReadFull rnd (NonceSize gcm) with
          | Err err => Err err
          | Ok nonce => Ok (nonce ++ Seal gcm nonce val)
          end
      end
  end.

Definition Decrypt (val key : bytes) : result bytes :=
  match aes_NewCipher key with
  | Err err => Err err
  | Ok c =>
      match cipher_NewGCM c with
      | Err err => Err err
      | Ok gcm =>
          let nonceSize := NonceSize gcm in
          if bool_decide (length val < nonceSize)%nat
          then Err (errors_New "the cipher text value is too short")
          else
            let nonce := take nonceSize val in
            let val := drop nonceSize val in
            Open gcm nonce val
      end
  end.
End Primitive.

(** ** Key and Keyset (crypto.go, lines 65-95) *)

Record Key : Type := mkKey {
  Value : bytes;
  CreatedUnix : Z;
  ExpiresUnix : Z;
}.

(** A [*Key]: nil, or the location of a [Key] object. *)
Definition loc := positive.
Definition ptr := option loc.
Abbreviation nil_ptr := (@None loc).
Abbreviation heap := (gmap loc Key).

Record Keyset : Type := mkKeyset {
  keys : list ptr;
  TypeID : Z;
}.

(** [*p] *)
Definition deref (h : heap) (p : ptr) : option Key :=
  l ← p; h !! l.

(** [p.ExpiresUnix = v] *)
Definition set_ExpiresUnix (k : Key) (v : Z) : Key :=
  {| Value := Value k; CreatedUnix := CreatedUnix k; ExpiresUnix := v |}.

Definition store_ExpiresUnix (h : heap) (p : ptr) (v : Z) : option heap :=
  l ← p; k ← h !! l; Some (<[l := set_ExpiresUnix k v]> h).

(** [ks.keys = keys] *)
Definition set_keys (ks : Keyset) (keys' : list ptr) : Keyset :=
  {| keys := keys'; TypeID := TypeID ks |}.

(** [&Key{...}]: a new object, at a location the store does not use. *)
Definition alloc (h : heap) (k : Key) : heap * ptr :=
  let l := fresh (dom h) in (<[l := k]> h, Some l).

(** [NewKeyset] *)
Definition NewKeyset : Keyset := {| keys := []; TypeID := 0 |}.

(** [NewKeysetWithKey] *)
Definition NewKeysetWithKey (k : ptr) : Keyset :=
  {| keys := [k]; TypeID := 0 |}.

(** [NewKey] *)
Definition NewKey (h : heap) (now : time.Time) (key256 : bytes) : heap * ptr :=
  alloc h {| Value := key256; CreatedUnix := time.Unix now; ExpiresUnix := 0 |}.

(** The test all three of [Encrypt], [Decrypt] and [Purge] make on a key:
    [k.ExpiresUnix > 0 && k.ExpiresUnix < now]. *)
Definition expired (k : Key) (now : Z) : bool :=
  bool_decide (ExpiresUnix k > 0) && bool_decide (ExpiresUnix k < now).

(** ** Keyset.Encrypt (crypto.go, lines 118-130)

    The answer comes with the list of the keys whose [Value] was handed to
    [Encrypt], in call order. *)

Section Keyset.
Context `{C : GoCrypto}.

Definition Keyset_Encrypt (h : heap) (ks : Keyset) (rnd : entropy)
    (now : time.Time) (val : bytes) : option (list ptr * result bytes) :=
  if bool_decide (length (keys ks) = 0%nat)
  then Some ([], Err (errors_New "invalid keyset: empty"))
  else
    p ← keys ks !! 0%nat;
    k ← deref h p;
    if expired k (time.Unix now)
    then Some ([], Err (errors_New "no valid key in keyset"))
    else Some ([p], Encrypt rnd val (Value k)).

(** ** Keyset.Decrypt (crypto.go, lines 134-149)

    The loop over [ks.keys], with [now] read once before it. The answer
    comes with the list of the keys whose [Value] was handed to [Decrypt],
    in call order. *)

Fixpoint Decrypt_range (h : heap) (now : Z) (val : bytes) (ks : list ptr)
    : option (list ptr * result bytes) :=
  match ks with
  | [] => Some ([], Err (errors_New "no valid decryption key"))
  | p :: rest =>
      k ← deref h p;
      if expired k now
      then Decrypt_range h now val rest
      else
        match Decrypt val (Value k) with
        | Ok res => Some ([p], Ok res)
        | Err _ =>
            '(tried, r) ← Decrypt_range h now val rest;
            Some (p :: tried, r)
        end
  end.

Definition Keyset_Decrypt (h : heap) (ks : Keyset) (now : time.Time)
    (val : bytes) : option (list ptr * result bytes) :=
  let now := time.Unix now in
  Decrypt_range h now val (keys ks).
End Keyset.

(** ** Keyset.RotateIn (crypto.go, lines 181-190) *)

Definition RotateIn (h : heap) (ks : Keyset) (key : ptr)
    (expireAfter : time.Duration) (now : time.Time) : option (heap * Keyset) :=
  let keys0 := [key] in
  if bool_decide (length (keys ks) > 0)%nat
  then
    p ← keys ks !! 0%nat;
    h' ← store_ExpiresUnix h p (time.Unix (time.Add now expireAfter));
    Some (h', set_keys ks (keys0 ++ keys ks))
  else Some (h, set_keys ks keys0).

(** ** Keyset.Purge (crypto.go, lines 193-206)

    The loop compacts the slice in place: [arr] is the backing array, read at
    index [i] and written at index [end_]. An index out of range panics. *)

Definition Purge_body (h : heap) (now : Z) (st : list ptr * nat) (i : nat)
    : option (list ptr * nat) :=
  let '(arr, end_) := st in
  p ← arr !! i;
  k ← deref h p;
  if expired k now
  then Some (arr, end_)
  else
    if bool_decide (end_ < length arr)%nat
    then Some (<[end_ := p]> arr, S end_)
    else None.

Fixpoint Purge_range (h : heap) (now : Z) (idx : list nat)
    (st : list ptr * nat) : option (list ptr * nat) :=
  match idx with
  | [] => Some st
  | i :: idx' => st' ← Purge_body h now st i; Purge_range h now idx' st'
  end.

Definition Purge (h : heap) (ks : Keyset) (now : time.Time) : option Keyset :=
  let now := time.Unix now in
  '(arr, end_) ←
    Purge_range h now (seq 0 (length (keys ks))) (keys ks, 0%nat);
  if bool_decide (end_ ≤ length arr)%nat
  then Some (set_keys ks (take end_ arr))
  else None.

(** ** Vocabulary of the statements *)

(** The error kinds, by the error values the package makes for them. *)
Definition EmptyKeysetError : error := errors_New "invalid keyset: empty".
Definition NoValidKeyError : error := errors_New "no valid key in keyset".
Definition NoValidDecryptionKeyError : error :=
  errors_New "no valid decryption key".

(** A pointer to a [Key] object of the store (so: not nil). *)
Definition live (h : heap) (p : ptr) : Prop := is_Some (deref h p).

(** Every slot of the keyset holds a [Key]. *)
Definition Keyset_ok (h : heap) (ks : Keyset) : Prop :=
  Forall (live h) (keys ks).

(** The key behind [p] passes the expiry test at [now]. *)
Definition unexpired (h : heap) (now : Z) (p : ptr) : bool :=
  match deref h p with
  | Some k => negb (expired k now)
  | None => false
  end.

Section Attempts.
Context `{C : GoCrypto}.

(** [Decrypt(val, k.Value)] with the key behind [p] gives [res]. *)
Definition opens (h : heap) (val : bytes) (p : ptr) (res : bytes) : Prop :=
  ∃ k, deref h p = Some k ∧ Decrypt val (Value k) = Ok res.

(** [Decrypt(val, k.Value)] with the key behind [p] gives an error. *)
Definition rejects (h : heap) (val : bytes) (p : ptr) : Prop :=
  ∃ k e, deref h p = Some k ∧ Decrypt val (Value k) = Err e.
End Attempts.

(** What holds of the backing array [st.1] and of the write index [st.2] when
    the loop of [Purge] over the keys [orig] reaches index [i]: the slots
    below the write index hold the survivors among the first [i] keys, in
    order, and the slots from [i] on are as they were. *)
Definition Purge_inv (h : heap) (now : Z) (orig : list ptr) (i : nat)
    (st : list ptr * nat) : Prop :=
  length st.1 = length orig ∧
  st.2 = length (filter (λ p, unexpired h now p) (take i orig)) ∧
  take st.2 st.1 = filter (λ p, unexpired h now p) (take i orig) ∧
  drop i st.1 = drop i orig.

(** The expiry test in the words of the specification:
    [expiresAt != 0 && expiresAt < now]. *)
Definition isExpired_spec (k : Key) (now : Z) : bool :=
  bool_decide (ExpiresUnix k ≠ 0) && bool_decide (ExpiresUnix k < now).

(** The key behind [p] is in force at [now]: it is not the case that its
    expiry is positive and before [now]. The rule is written in numbers, not
    through [expired]. *)
Definition in_force (h : heap) (now : Z) (p : ptr) : bool :=
  match deref h p with
  | Some k => negb (bool_decide (0 < ExpiresUnix k ∧ ExpiresUnix k < now))
  | None => false
  end.

(** ** A stand-in for the standard library

    A cipher with the interface behaviour of AES-GCM and no secrecy: the
    sealed text is the plaintext behind a tag made of the key and the nonce.
    It gives the general statements a concrete instance to run on. *)

Module Mock.
Definition new_cipher (key : bytes) : result bytes :=
  if bool_decide (length key ∈ [16; 24; 32]%nat)
  then Ok key
  else Err (KeySizeError (length key)).

Definition tag (g nonce : bytes) : bytes := g ++ nonce.

Definition seal (g nonce plaintext : bytes) : bytes :=
  tag g nonce ++ plaintext.

Definition open (g nonce ciphertext : bytes) : result bytes :=
  if bool_decide (take (length (tag g nonce)) ciphertext = tag g nonce)
  then Ok (drop (length (tag g nonce)) ciphertext)
  else Err (lib_error "cipher: message authentication failed").

#[export] Instance crypto : GoCrypto := {|
  Block := bytes;
  AEAD := bytes;
  aes_NewCipher := new_cipher;
  cipher_NewGCM := Ok;
  NonceSize := λ _, 12%nat;
  Seal := seal;
  Open := open;
|}.

(** A random source that delivers. *)
Definition zeros : entropy := inr (λ _, Byte.x00).

(** Three keys of 16 bytes and one of 3 bytes. *)
Definition material (b : byte) : bytes := replicate 16 b.
Definition K1 : Key := mkKey (material Byte.x01) 10 0.
Definition K2 : Key := mkKey (material Byte.x02) 20 0.
Definition K3 : Key := mkKey (material Byte.x03) 30 0.
Definition short : bytes := [Byte.x01; Byte.x02; Byte.x03].

Definition p1 : ptr := Some 1%positive.
Definition p2 : ptr := Some 2%positive.
Definition p3 : ptr := Some 3%positive.

Definition store : heap :=
  <[1%positive := K1]> (<[2%positive := K2]> (<[3%positive := K3]> ∅)).

(** The clock at [s] seconds past the epoch. *)
Definition at_second (s : Z) : time.Time := s * time.Second.

Definition hello : bytes := [Byte.x68; Byte.x69].

(** [hello] as [Encrypt] seals it under the second key. *)
Definition letter : bytes :=
  match Encrypt zeros hello (Value K2) with
  | Ok c => c
  | Err _ => []
  end.
End Mock.

(** ** HashForString (crypto.go, lines 20-26)

    crypto/sha256 is the standard library's: [sha256.Sum256] is the field of
    a class, and its output size the law the package relies on. *)

Class GoHash : Type := {
  (** [sha256.Sum256(data)], as the bytes of the array it returns *)
  sha256_Sum256 : bytes → bytes;
}.

Class GoHashLaws (H : GoHash) : Prop := {
  (** [sha256.Size] is 32. *)
  Sum256_size data : length (sha256_Sum256 data) = 32%nat;
}.

Definition HashForString `{H : GoHash} (s : string) : bytes :=
  let h := sha256_Sum256 (String.list_byte_of_string s) in
  h.

(** ** GenerateRandomBytes, RandUInt32, NewRandomKey
       (crypto.go, lines 97-105 and 158-176) *)

(** An error with the errors it wraps: [fmt.Errorf] with the verb [%w] keeps
    the error it formats, and [errors.Unwrap] gives it back. *)
Inductive error_chain : Type :=
| plain (e : error)
| fmt_Errorf (format : string) (err : error_chain).

Definition errors_Unwrap (e : error_chain) : option error_chain :=
  match e with
  | plain _ => None
  | fmt_Errorf _ err => Some err
  end.

Inductive wresult (A : Type) : Type :=
| WOk (a : A)
| WErr (e : error_chain).
Arguments WOk {A} a.
Arguments WErr {A} e.

(** [io.ReadFull(rand.Reader, buf)] on a buffer of any length [n]: with
    nothing to fill it returns at once, without a read that could fail.
    ([io_ReadFull] is the same call on a nonce buffer, never empty for GCM.) *)
Definition io_ReadFull_buf (rnd : entropy) (n : nat) : result bytes :=
  if bool_decide (n = 0%nat) then Ok [] else io_ReadFull rnd n.

Definition GenerateRandomBytes (rnd : entropy) (n : nat) : wresult bytes :=
  match io_ReadFull_buf rnd n with
  | Err err => WErr (fmt_Errorf "GenerateRandomBytes failed: %w" (plain err))
  | Ok buf => WOk buf
  end.

(** The conversion [uint32(x)]. *)
Definition uint32 (x : Z) : Z := x `mod` 2 ^ 32.

Definition byte_Z (b : byte) : Z := Z.of_N (Byte.to_N b).

(** [binary.BigEndian.Uint32(b)], after encoding/binary: a bounds check on
    [b[3]], then the four bytes or-ed together. [None] is the panic. *)
Definition BigEndian_Uint32 (b : bytes) : option Z :=
  b3 ← b !! 3%nat;
  b2 ← b !! 2%nat;
  b1 ← b !! 1%nat;
  b0 ← b !! 0%nat;
  Some (Z.lor (Z.lor (Z.lor (uint32 (byte_Z b3))
                            (uint32 (Z.shiftl (uint32 (byte_Z b2)) 8)))
                     (uint32 (Z.shiftl (uint32 (byte_Z b1)) 16)))
              (uint32 (Z.shiftl (uint32 (byte_Z b0)) 24))).

Definition RandUInt32 (rnd : entropy) : option (wresult Z) :=
  match GenerateRandomBytes rnd (Nat.shiftl 1 8) with
  | WErr err => Some (WErr err)
  | WOk buf => v ← BigEndian_Uint32 buf; Some (WOk v)
  end.

Definition NewRandomKey (h : heap) (rnd : entropy) (now : time.Time)
    : heap * wresult ptr :=
  match GenerateRandomBytes rnd 32 with
  | WErr err => (h, WErr (fmt_Errorf "unable to generate new key: %w" err))
  | WOk v => let '(h', p) := NewKey h now v in (h', WOk p)
  end.

(** ** More of the stand-in *)

Module MockMore.
(** A hash of the right size and no other merit: the data, cut or padded to
    32 bytes. *)
#[export] Instance hash : GoHash := {|
  sha256_Sum256 := λ data, take 32 (data ++ replicate 32 Byte.x00);
|}.

(** A random source that does not deliver. *)
Definition broken : entropy := inl (lib_error "unexpected EOF").

(** A random source that counts: byte [i] is [i] modulo 256. *)
Definition counting : entropy :=
  inr (λ i, default Byte.x00 (Byte.of_nat (i `mod` 256)%nat)).

(** The store with the first key expired since second 50. *)
Definition aged : heap :=
  <[1%positive := set_ExpiresUnix Mock.K1 50]> Mock.store.

(** The store with the second key stamped with second -100, a time before
    the epoch. *)
Definition odd : heap :=
  <[2%positive := set_ExpiresUnix Mock.K2 (-100)]> Mock.store.
End MockMore.

(** * Properties *)

(** ** The clock *)

Lemma Unix_Add_seconds (t : time.Time) (s : Z) :
  time.Unix (time.Add t (s * time.Second)) = time.Unix t + s.
Proof.
  unfold time.Unix, time.Add. apply Z.div_add. unfold time.Second. lia.
Qed.

Lemma Unix_Add_nonpositive (t : time.Time) (d : time.Duration) :
  d ≤ 0 → time.Unix (time.Add t d) ≤ time.Unix t.
Proof.
  intros Hd. unfold time.Unix, time.Add.
  apply Z.div_le_mono; unfold time.Second; lia.
Qed.

Lemma Unix_at_second (s : Z) : time.Unix (Mock.at_second s) = s.
Proof.
  unfold time.Unix, Mock.at_second. apply Z.div_mul. unfold time.Second. lia.
Qed.

(** ** The store *)

Lemma deref_Some (h : heap) (p : ptr) (k : Key) :
  deref h p = Some k ↔ ∃ l, p = Some l ∧ h !! l = Some k.
Proof.
  unfold deref. destruct p as [l|]; simpl.
  - split; [eauto | intros (? & [= <-] & ?); done].
  - split; [done | intros (? & ? & ?); done].
Qed.

Lemma deref_insert_eq (h : heap) (l : loc) (k : Key) :
  deref (<[l := k]> h) (Some l) = Some k.
Proof. unfold deref; simpl. apply lookup_insert_eq. Qed.

Lemma deref_insert_ne (h : heap) (l : loc) (k : Key) (p : ptr) :
  p ≠ Some l → deref (<[l := k]> h) p = deref h p.
Proof.
  intros Hp. destruct p as [l'|]; [|done]. unfold deref; simpl.
  apply lookup_insert_ne. congruence.
Qed.

Lemma live_insert (h : heap) (l : loc) (k : Key) (p : ptr) :
  live h p → live (<[l := k]> h) p.
Proof.
  unfold live. intros Hp. destruct (decide (p = Some l)) as [->|Hne].
  - rewrite deref_insert_eq. eauto.
  - by rewrite deref_insert_ne.
Qed.

Lemma Keyset_ok_head (h : heap) (ks : Keyset) (p : ptr) :
  Keyset_ok h ks → keys ks !! 0%nat = Some p → ∃ k, deref h p = Some k.
Proof.
  unfold Keyset_ok. rewrite Forall_lookup. intros Hok Hp.
  destruct (Hok _ _ Hp) as [k Hk]. eauto.
Qed.

(** Why the statements below ask for a keyset of live keys: with nil at index
    0, each of the four operations dereferences it and panics. *)
Lemma nil_front_panics `{C : GoCrypto} (h : heap) (ks : Keyset) (key : ptr)
    (expireAfter : time.Duration) (rnd : entropy) (now : time.Time)
    (val : bytes) :
  keys ks !! 0%nat = Some nil_ptr →
  Keyset_Encrypt h ks rnd now val = None ∧
  Keyset_Decrypt h ks now val = None ∧
  RotateIn h ks key expireAfter now = None ∧
  Purge h ks now = None.
Proof.
  intros Hnil. unfold Keyset_Encrypt, Keyset_Decrypt, RotateIn, Purge.
  destruct (keys ks) as [|p rest]; [done|]. by injection Hnil as ->.
Qed.

(** ** RotateIn *)

Lemma RotateIn_empty (h : heap) (ks : Keyset) (key : ptr)
    (expireAfter : time.Duration) (now : time.Time) :
  keys ks = [] →
  RotateIn h ks key expireAfter now = Some (h, set_keys ks [key]).
Proof. intros Hk. unfold RotateIn. rewrite Hk. done. Qed.

Lemma RotateIn_cons (h : heap) (ks : Keyset) (key : ptr)
    (expireAfter : time.Duration) (now : time.Time)
    (l0 : loc) (k0 : Key) (rest : list ptr) :
  keys ks = Some l0 :: rest → h !! l0 = Some k0 →
  RotateIn h ks key expireAfter now =
    Some (<[l0 := set_ExpiresUnix k0
                    (time.Unix (time.Add now expireAfter))]> h,
          set_keys ks (key :: Some l0 :: rest)).
Proof.
  intros Hk Hl. unfold RotateIn, store_ExpiresUnix. rewrite Hk. simpl.
  by rewrite Hl.
Qed.

(** C1. [RotateIn] on a keyset of live keys succeeds; the new key is at index
    0 and the keys that were there follow it in their old order, so N keys
    become N+1; the key that was at index 0, if there was one, now expires at
    [Unix (now + expireAfter)] whatever its expiry was; every Key object
    other than that one is as it was. *)
Theorem RotateIn_spec (h : heap) (ks : Keyset) (key : ptr)
    (expireAfter : time.Duration) (now : time.Time) :
  Keyset_ok h ks →
  ∃ h' ks',
    RotateIn h ks key expireAfter now = Some (h', ks') ∧
    keys ks' = key :: keys ks ∧
    keys ks' !! 0%nat = Some key ∧
    (∀ i, keys ks' !! S i = keys ks !! i) ∧
    length (keys ks') = S (length (keys ks)) ∧
    (∀ p0 k0, keys ks !! 0%nat = Some p0 → deref h p0 = Some k0 →
       deref h' p0 =
         Some (set_ExpiresUnix k0 (time.Unix (time.Add now expireAfter)))) ∧
    (∀ p, keys ks !! 0%nat ≠ Some p → deref h' p = deref h p).
Proof.
  intros Hok. destruct (keys ks) as [|p0 rest] eqn:Hk.
  - exists h, (set_keys ks [key]). rewrite RotateIn_empty by done.
    repeat split; done.
  - destruct (Keyset_ok_head h ks p0 Hok) as [k0 Hk0]; [by rewrite Hk|].
    apply deref_Some in Hk0 as (l0 & -> & Hl0).
    eexists _, _. rewrite (RotateIn_cons _ _ _ _ _ l0 k0 rest) by done.
    split; [done|]. simpl. repeat split; try done.
    + intros p0 k0' [= <-] Hd. apply deref_Some in Hd as (l & [= <-] & Hl).
      rewrite deref_insert_eq. congruence.
    + intros p Hp. apply deref_insert_ne. congruence.
Qed.

Lemma RotateIn_spec_witness :
  ∃ h' ks',
    RotateIn Mock.store (mkKeyset [Mock.p1; Mock.p2] 7) Mock.p3
      time.Hour (Mock.at_second 100) = Some (h', ks') ∧
    keys ks' = [Mock.p3; Mock.p1; Mock.p2] ∧
    ExpiresUnix <$> deref h' Mock.p1 = Some 3700 ∧
    deref h' Mock.p2 = Some Mock.K2.
Proof.
  destruct (RotateIn_spec Mock.store (mkKeyset [Mock.p1; Mock.p2] 7) Mock.p3
              time.Hour (Mock.at_second 100))
    as (h' & ks' & Hr & Hkeys & _ & _ & _ & Hfront & Hothers).
  { repeat constructor; vm_compute; eauto. }
  exists h', ks'. split; [done|]. split; [done|]. split.
  - rewrite (Hfront Mock.p1 Mock.K1) by done. vm_compute. done.
  - rewrite (Hothers Mock.p2) by done. vm_compute. done.
Defined.

(** Live keys stay live: after rotating a live key in, every slot of the
    keyset still holds a [Key]. *)
Lemma RotateIn_Keyset_ok (h h' : heap) (ks ks' : Keyset) (key : ptr)
    (expireAfter : time.Duration) (now : time.Time) :
  Keyset_ok h ks → live h key →
  RotateIn h ks key expireAfter now = Some (h', ks') →
  Keyset_ok h' ks'.
Proof.
  unfold Keyset_ok. intros Hok Hkey Hrun.
  destruct (keys ks) as [|p0 rest] eqn:Hk.
  - rewrite RotateIn_empty in Hrun by done. injection Hrun as <- <-.
    simpl. by constructor.
  - destruct (Keyset_ok_head h ks p0) as [k0 Hk0];
      [by unfold Keyset_ok; rewrite Hk | by rewrite Hk |].
    apply deref_Some in Hk0 as (l0 & -> & Hl0).
    rewrite (RotateIn_cons _ _ _ _ _ l0 k0 rest) in Hrun by done.
    injection Hrun as <- <-. simpl.
    constructor; [by apply live_insert|].
    eapply Forall_impl; [done|]. intros p. apply live_insert.
Qed.

(** C10 as stated fails when the new key is the object already at index 0:
    the caller supplied it with no expiry, and [RotateIn] gives it one. *)
Lemma RotateIn_alias_counterexample :
  ∃ h' ks',
    RotateIn Mock.store (NewKeysetWithKey Mock.p1) Mock.p1
      time.Hour (Mock.at_second 100) = Some (h', ks') ∧
    keys ks' = [Mock.p1; Mock.p1] ∧
    ExpiresUnix <$> deref Mock.store Mock.p1 = Some 0 ∧
    ExpiresUnix <$> deref h' Mock.p1 = Some 3700 ∧
    deref h' Mock.p1 ≠ deref Mock.store Mock.p1.
Proof.
  eexists _, _. split; [vm_compute; reflexivity|].
  repeat split; try (vm_compute; reflexivity).
  vm_compute. intros [=].
Qed.

(** C10, amended. [RotateIn] puts the pointer it was given at index 0 and,
    unless that pointer is the one already at index 0, leaves the object
    behind it as the caller supplied it and never looks at it: a store that
    differs only in that object is taken to the same keyset and to a store
    that differs only in that object. Into an empty keyset, the store is
    unchanged and the keyset holds just the new key. *)
Theorem RotateIn_new_key_frame (h : heap) (ks : Keyset) (key : ptr)
    (expireAfter : time.Duration) (now : time.Time) :
  Keyset_ok h ks →
  ∃ h' ks',
    RotateIn h ks key expireAfter now = Some (h', ks') ∧
    keys ks' !! 0%nat = Some key ∧
    (keys ks !! 0%nat ≠ Some key → deref h' key = deref h key) ∧
    (keys ks !! 0%nat ≠ Some key → ∀ l k', key = Some l →
       RotateIn (<[l := k']> h) ks key expireAfter now =
         Some (<[l := k']> h', ks')) ∧
    (keys ks = [] → h' = h ∧ keys ks' = [key]).
Proof.
  intros Hok. destruct (keys ks) as [|p0 rest] eqn:Hk.
  - exists h, (set_keys ks [key]). rewrite RotateIn_empty by done.
    repeat split; try done.
    intros _ l k' ->. by rewrite RotateIn_empty.
  - destruct (Keyset_ok_head h ks p0 Hok) as [k0 Hk0]; [by rewrite Hk|].
    apply deref_Some in Hk0 as (l0 & -> & Hl0).
    eexists _, _. rewrite (RotateIn_cons _ _ _ _ _ l0 k0 rest) by done.
    split; [done|]. simpl. repeat split; try done.
    + intros Hne. apply deref_insert_ne. congruence.
    + intros Hne l k' ->. assert (l ≠ l0) by congruence.
      rewrite (RotateIn_cons _ _ _ _ _ l0 k0 rest);
        [|done|by rewrite lookup_insert_ne].
      by rewrite insert_insert_ne.
Qed.

Lemma RotateIn_new_key_frame_witness :
  ∃ h' ks',
    RotateIn Mock.store (NewKeysetWithKey Mock.p1) Mock.p2
      time.Hour (Mock.at_second 100) = Some (h', ks') ∧
    keys ks' !! 0%nat = Some Mock.p2 ∧
    deref h' Mock.p2 = Some Mock.K2.
Proof.
  destruct (RotateIn_new_key_frame Mock.store (NewKeysetWithKey Mock.p1)
              Mock.p2 time.Hour (Mock.at_second 100))
    as (h' & ks' & Hr & Hfront & Hsame & _ & _).
  { repeat constructor; vm_compute; eauto. }
  exists h', ks'. split; [done|]. split; [done|].
  rewrite Hsame by done. vm_compute. done.
Defined.

(** ** The expiry test *)

(** C4 as stated fails on a negative [ExpiresUnix]: retiring key 1 at second
    100 with [expireAfter] of minus 200 seconds stamps it with -100, which is
    nonzero and before every later second, yet the package does not take the
    key for expired: [Decrypt] still tries it and [Purge] keeps it. *)
Lemma expired_negative_counterexample :
  ∃ h' ks' k,
    RotateIn Mock.store (NewKeysetWithKey Mock.p1) Mock.p2
      (-200 * time.Second) (Mock.at_second 100) = Some (h', ks') ∧
    deref h' Mock.p1 = Some k ∧
    ExpiresUnix k = -100 ∧
    isExpired_spec k 500 = true ∧
    expired k 500 = false ∧
    fst <$> Keyset_Decrypt (C := Mock.crypto) h' ks'
              (Mock.at_second 500) Mock.hello
      = Some [Mock.p2; Mock.p1] ∧
    keys <$> Purge h' ks' (Mock.at_second 500) = Some [Mock.p2; Mock.p1].
Proof.
  eexists _, _, _. split; [vm_compute; reflexivity|].
  repeat split; vm_compute; reflexivity.
Qed.

(** C4, amended. The test is true exactly when [ExpiresUnix] is positive and
    before [now]: a key with a positive expiry before [now] is expired, a key
    with a zero or negative expiry never is, and on expiries that are not
    negative the test is the one the specification words. *)
Theorem expired_spec (k : Key) (now : Z) :
  (expired k now = true ↔ ExpiresUnix k > 0 ∧ ExpiresUnix k < now) ∧
  (ExpiresUnix k ≤ 0 → expired k now = false) ∧
  (0 ≤ ExpiresUnix k → expired k now = isExpired_spec k now).
Proof.
  unfold expired, isExpired_spec.
  rewrite andb_true_iff, !bool_decide_eq_true.
  split; [done|]. split.
  - intros H. rewrite (bool_decide_false (ExpiresUnix k > 0)) by lia. done.
  - intros H. f_equal. apply bool_decide_ext. lia.
Qed.

Lemma expired_spec_witness :
  expired (mkKey [] 10 50) 100 = true ∧
  expired (mkKey [] 10 0) 100 = false ∧
  expired (mkKey [] 10 50) 100 = isExpired_spec (mkKey [] 10 50) 100.
Proof.
  destruct (expired_spec (mkKey [] 10 50) 100) as (Hiff & _ & Hsame).
  destruct (expired_spec (mkKey [] 10 0) 100) as (_ & Hzero & _).
  split; [apply Hiff; simpl; lia|].
  split; [apply Hzero; simpl; lia|].
  apply Hsame; simpl; lia.
Defined.

Lemma expired_true_iff (k : Key) (now : Z) :
  expired k now = true ↔ 0 < ExpiresUnix k ∧ ExpiresUnix k < now.
Proof.
  unfold expired. rewrite andb_true_iff, !bool_decide_eq_true. lia.
Qed.

Lemma expired_false_iff (k : Key) (now : Z) :
  expired k now = false ↔ ExpiresUnix k ≤ 0 ∨ now ≤ ExpiresUnix k.
Proof.
  unfold expired. rewrite andb_false_iff, !bool_decide_eq_false. lia.
Qed.

Lemma unexpired_in_force (h : heap) (now : Z) (p : ptr) :
  unexpired h now p = in_force h now p.
Proof.
  unfold unexpired, in_force. destruct (deref h p) as [k|]; [|done].
  f_equal. destruct (expired k now) eqn:He.
  - apply expired_true_iff in He. by rewrite bool_decide_true.
  - apply expired_false_iff in He. rewrite bool_decide_false; [done|lia].
Qed.

Lemma filter_in_force (h : heap) (now : Z) (l : list ptr) :
  filter (λ p, in_force h now p) l = filter (λ p, unexpired h now p) l.
Proof.
  apply list_filter_iff. intros p. by rewrite unexpired_in_force.
Qed.

Lemma in_force_true (h : heap) (now : Z) (p : ptr) :
  in_force h now p = true ↔
  ∃ k, deref h p = Some k ∧ (ExpiresUnix k ≤ 0 ∨ now ≤ ExpiresUnix k).
Proof.
  unfold in_force. destruct (deref h p) as [k|].
  - rewrite negb_true_iff, bool_decide_eq_false. split.
    + intros Hk. exists k. split; [done|lia].
    + intros (? & [= <-] & ?). lia.
  - split; [done | by intros (? & ? & ?)].
Qed.

(** ** Keyset.Encrypt *)

(** C3 as stated fails on a negative [ExpiresUnix]: with the key at index 0
    stamped -100, a stamp that is not zero and is before second 500, the
    specification's test calls the key expired, and [Encrypt] at second 500
    still seals under it instead of failing with [NoValidKeyError]. *)
Lemma Keyset_Encrypt_negative_counterexample :
  ∃ k,
    deref MockMore.odd Mock.p2 = Some k ∧
    ExpiresUnix k = -100 ∧
    isExpired_spec k 500 = true ∧
    Keyset_Encrypt (C := Mock.crypto) MockMore.odd
      (mkKeyset [Mock.p2; Mock.p1] 0) Mock.zeros (Mock.at_second 500)
      Mock.hello = Some ([Mock.p2], Ok Mock.letter).
Proof.
  eexists. split; [vm_compute; reflexivity|].
  repeat split; vm_compute; reflexivity.
Qed.

(** C3, amended. [Encrypt] on a keyset of live keys answers; it hands to the
    cipher no key but the one at index 0; on an empty keyset it fails with
    [EmptyKeysetError]; when the expiry of the key at index 0 is positive
    and before [now] it fails with [NoValidKeyError] and no key is used; in
    every other case, a zero or negative expiry included, its answer is the
    answer of the package's [Encrypt] under the [Value] of that key. *)
Theorem Keyset_Encrypt_spec `{C : GoCrypto} (h : heap) (ks : Keyset)
    (rnd : entropy) (now : time.Time) (val : bytes) :
  Keyset_ok h ks →
  ∃ used r,
    Keyset_Encrypt h ks rnd now val = Some (used, r) ∧
    (∀ p, p ∈ used → keys ks !! 0%nat = Some p) ∧
    (keys ks = [] → used = [] ∧ r = Err EmptyKeysetError) ∧
    (∀ p0 k0, keys ks !! 0%nat = Some p0 → deref h p0 = Some k0 →
       (0 < ExpiresUnix k0 ∧ ExpiresUnix k0 < time.Unix now →
        used = [] ∧ r = Err NoValidKeyError) ∧
       (ExpiresUnix k0 ≤ 0 ∨ time.Unix now ≤ ExpiresUnix k0 →
        used = [p0] ∧ r = Encrypt rnd val (Value k0))).
Proof.
  intros Hok. unfold Keyset_Encrypt.
  destruct (keys ks) as [|p0 rest] eqn:Hk; simpl.
  - eexists _, _. split; [done|]. split; [by intros p ?%elem_of_nil|].
    split; [done|]. intros ? ? [=].
  - destruct (Keyset_ok_head h ks p0 Hok) as [k0 Hk0]; [by rewrite Hk|].
    rewrite Hk0. simpl. destruct (expired k0 (time.Unix now)) eqn:He.
    + eexists _, _. split; [done|]. split; [by intros p ?%elem_of_nil|].
      split; [done|]. intros p k [= <-] Hd.
      assert (k = k0) as -> by congruence. split; [done|].
      intros Hin%expired_false_iff. congruence.
    + eexists _, _. split; [done|].
      split; [by intros p ->%list_elem_of_singleton|].
      split; [done|]. intros p k [= <-] Hd.
      assert (k = k0) as -> by congruence. split; [|done].
      intros Hout%expired_true_iff. congruence.
Qed.

Lemma Keyset_Encrypt_spec_witness :
  Keyset_Encrypt (C := Mock.crypto) MockMore.aged
    (mkKeyset [Mock.p1; Mock.p2] 0) Mock.zeros (Mock.at_second 100)
    Mock.hello = Some ([], Err NoValidKeyError) ∧
  Keyset_Encrypt (C := Mock.crypto) MockMore.odd
    (mkKeyset [Mock.p2; Mock.p1] 0) Mock.zeros (Mock.at_second 500)
    Mock.hello
  = Some ([Mock.p2],
          Encrypt (C := Mock.crypto) Mock.zeros Mock.hello (Value Mock.K2)).
Proof.
  split.
  - destruct (Keyset_Encrypt_spec (C := Mock.crypto) MockMore.aged
                (mkKeyset [Mock.p1; Mock.p2] 0) Mock.zeros
                (Mock.at_second 100) Mock.hello)
      as (used & r & Hrun & _ & _ & Hfront).
    { repeat constructor; vm_compute; eauto. }
    destruct (Hfront Mock.p1 (set_ExpiresUnix Mock.K1 50) eq_refl eq_refl)
      as [Hexp _].
    destruct Hexp as [-> ->]; [|done].
    rewrite Unix_at_second. simpl. lia.
  - destruct (Keyset_Encrypt_spec (C := Mock.crypto) MockMore.odd
                (mkKeyset [Mock.p2; Mock.p1] 0) Mock.zeros
                (Mock.at_second 500) Mock.hello)
      as (used & r & Hrun & _ & _ & Hfront).
    { repeat constructor; vm_compute; eauto. }
    destruct (Hfront Mock.p2 (set_ExpiresUnix Mock.K2 (-100))
                eq_refl eq_refl) as [_ Hin].
    destruct Hin as [-> ->]; [|done].
    left. simpl. lia.
Defined.

(** ** Keyset.Decrypt *)

Section Decrypt_range.
Context `{C : GoCrypto}.

Lemma unexpired_true (h : heap) (now : Z) (p : ptr) :
  unexpired h now p = true ↔
  ∃ k, deref h p = Some k ∧ expired k now = false.
Proof.
  unfold unexpired. destruct (deref h p) as [k|].
  - rewrite negb_true_iff. split; [eauto | by intros (? & [= <-] & ?)].
  - split; [done | by intros (? & ? & ?)].
Qed.

Lemma Decrypt_range_spec (h : heap) (now : Z) (val : bytes) (l : list ptr) :
  Forall (live h) l →
  ∃ tried r,
    Decrypt_range h now val l = Some (tried, r) ∧
    tried `prefix_of` filter (λ p, unexpired h now p) l ∧
    match r with
    | Ok res =>
        ∃ tried0 p,
          tried = tried0 ++ [p] ∧ Forall (rejects h val) tried0 ∧
          opens h val p res
    | Err e =>
        e = NoValidDecryptionKeyError ∧
        tried = filter (λ p, unexpired h now p) l ∧
        Forall (rejects h val) tried
    end.
Proof.
  induction 1 as [|p l [k Hk] _ IH]; simpl.
  - eexists _, _. split; [done|]. split; [apply prefix_nil|]. done.
  - rewrite Hk. simpl. destruct (expired k now) eqn:He.
    + rewrite filter_cons_False; [done|].
      unfold unexpired. rewrite Hk, He. simpl. tauto.
    + rewrite filter_cons_True
        by (unfold unexpired; rewrite Hk, He; simpl; tauto).
      destruct (Decrypt val (Value k)) as [res|e] eqn:Hd.
      * eexists _, _. split; [done|].
        split; [apply prefix_cons, prefix_nil|].
        exists [], p. split; [done|]. split; [constructor|].
        exists k. done.
      * destruct IH as (tried & r & -> & Hpre & Hr). simpl.
        eexists _, _. split; [done|]. split; [by apply prefix_cons|].
        assert (rejects h val p) as Hrej by (exists k, e; done).
        destruct r as [res|e'].
        -- destruct Hr as (tried0 & p' & -> & Hall & Hopen).
           exists (p :: tried0), p'. split; [done|].
           split; [by constructor | done].
        -- destruct Hr as (-> & -> & Hall). split; [done|].
           split; [done | by constructor].
Qed.

(** Only keys that pass the expiry test are ever tried, live or not. *)
Lemma Decrypt_range_tried (h : heap) (now : Z) (val : bytes) (l : list ptr)
    (tried : list ptr) (r : result bytes) :
  Decrypt_range h now val l = Some (tried, r) →
  ∀ p, p ∈ tried → p ∈ l ∧ unexpired h now p = true.
Proof.
  revert tried r. induction l as [|q l IH]; simpl; intros tried r Hrun p Hp.
  - injection Hrun as <- <-. by apply elem_of_nil in Hp.
  - destruct (deref h q) as [k|] eqn:Hq; [|done]. simpl in Hrun.
    assert (expired k now = false → unexpired h now q = true) as Hq'.
    { intros He. apply unexpired_true. eauto. }
    destruct (expired k now) eqn:He.
    + destruct (IH _ _ Hrun p Hp). split; [by right | done].
    + destruct (Decrypt val (Value k)).
      * injection Hrun as <- <-. apply list_elem_of_singleton in Hp as ->.
        split; [by left | auto].
      * destruct (Decrypt_range h now val l) as [[tried' r']|]; [|done].
        injection Hrun as <- <-. apply elem_of_cons in Hp as [->|Hp].
        -- split; [by left | auto].
        -- destruct (IH _ _ eq_refl p Hp). split; [by right | done].
Qed.

(** Whatever goes wrong with the keys, the caller sees one error only. *)
Lemma Decrypt_range_error (h : heap) (now : Z) (val : bytes) (l : list ptr)
    (tried : list ptr) (e : error) :
  Decrypt_range h now val l = Some (tried, Err e) →
  e = NoValidDecryptionKeyError.
Proof.
  revert tried. induction l as [|q l IH]; simpl; intros tried Hrun.
  - by injection Hrun as <- <-.
  - destruct (deref h q) as [k|]; [|done]. simpl in Hrun.
    destruct (expired k now); [eauto|].
    destruct (Decrypt val (Value k)); [done|].
    destruct (Decrypt_range h now val l) as [[tried' r']|]; [|done].
    injection Hrun as <- ->. eauto.
Qed.
End Decrypt_range.

(** C2 as stated fails on a negative [ExpiresUnix]: the second key, stamped
    -100, is expired at second 500 by the specification's test, and
    [Decrypt] at second 500 does not skip it: it tries it first and opens
    with it. *)
Lemma Keyset_Decrypt_negative_counterexample :
  ∃ k,
    deref MockMore.odd Mock.p2 = Some k ∧
    ExpiresUnix k = -100 ∧
    isExpired_spec k 500 = true ∧
    Keyset_Decrypt (C := Mock.crypto) MockMore.odd
      (mkKeyset [Mock.p2; Mock.p1] 0) (Mock.at_second 500) Mock.letter
      = Some ([Mock.p2], Ok Mock.hello).
Proof.
  eexists. split; [vm_compute; reflexivity|].
  repeat split; vm_compute; reflexivity.
Qed.

(** C2, amended. [Decrypt] on a keyset of live keys answers. The keys it
    tries are, in stored order, the keys in force at the one [now] read at
    the start, that is all keys but those whose expiry is positive and
    before [now] (a key with a zero or negative expiry is never skipped), up
    to the first that opens the value: on success the last key tried is the
    one that opened, every key tried before it was rejected and none is
    tried after it; the failure is [NoValidDecryptionKeyError], met exactly
    when every key in force was tried and rejected, which includes the
    keyset with no key in force and the empty keyset. *)
Theorem Keyset_Decrypt_spec `{C : GoCrypto} (h : heap) (ks : Keyset)
    (now : time.Time) (val : bytes) :
  Keyset_ok h ks →
  ∃ tried r,
    Keyset_Decrypt h ks now val = Some (tried, r) ∧
    tried `prefix_of`
      filter (λ p, in_force h (time.Unix now) p) (keys ks) ∧
    (∀ p, p ∈ tried →
       ∃ k, deref h p = Some k ∧
            (ExpiresUnix k ≤ 0 ∨ time.Unix now ≤ ExpiresUnix k)) ∧
    (filter (λ p, in_force h (time.Unix now) p) (keys ks) = [] →
       tried = [] ∧ r = Err NoValidDecryptionKeyError) ∧
    match r with
    | Ok res =>
        ∃ tried0 p,
          tried = tried0 ++ [p] ∧ Forall (rejects h val) tried0 ∧
          opens h val p res
    | Err e =>
        e = NoValidDecryptionKeyError ∧
        tried = filter (λ p, in_force h (time.Unix now) p) (keys ks) ∧
        Forall (rejects h val) tried
    end.
Proof.
  intros Hok. unfold Keyset_Decrypt. rewrite filter_in_force.
  destruct (Decrypt_range_spec h (time.Unix now) val (keys ks) Hok)
    as (tried & r & Hrun & Hpre & Hr).
  exists tried, r. split; [done|]. split; [done|]. split.
  { intros p Hp.
    destruct (Decrypt_range_tried _ _ _ _ _ _ Hrun p Hp) as [_ Hu].
    rewrite unexpired_in_force in Hu. by apply in_force_true. }
  split; [|done].
  intros Hnone. rewrite Hnone in Hpre. apply prefix_nil_inv in Hpre as ->.
  split; [done|]. destruct r as [res|e].
  - destruct Hr as (tried0 & p & Habs & _). by destruct tried0.
  - by destruct Hr as (-> & _).
Qed.

Lemma Keyset_Decrypt_spec_witness :
  Keyset_Decrypt (C := Mock.crypto) MockMore.aged
    (mkKeyset [Mock.p1; Mock.p2; Mock.p3] 0) (Mock.at_second 100)
    Mock.letter = Some ([Mock.p2], Ok Mock.hello).
Proof.
  destruct (Keyset_Decrypt_spec (C := Mock.crypto) MockMore.aged
              (mkKeyset [Mock.p1; Mock.p2; Mock.p3] 0) (Mock.at_second 100)
              Mock.letter)
    as (tried & r & Hrun & _ & _ & _ & _).
  { repeat constructor; vm_compute; eauto. }
  rewrite Hrun. vm_compute in Hrun. by injection Hrun as <- <-.
Defined.

(** C7 as stated fails: on a keyset with no key, [Decrypt] answers with the
    error of the end of its loop, which is not [EmptyKeysetError]. *)
Lemma Keyset_Decrypt_empty_counterexample :
  Keyset_Decrypt (C := Mock.crypto) ∅ NewKeyset (Mock.at_second 100)
    Mock.hello = Some ([], Err NoValidDecryptionKeyError) ∧
  NoValidDecryptionKeyError ≠ EmptyKeysetError.
Proof. split; [reflexivity | intros [=]]. Qed.

(** C7, amended. On a keyset with no key, [Decrypt] fails with
    [NoValidDecryptionKeyError] without trying anything; it is [Encrypt] that
    fails with [EmptyKeysetError] there. *)
Theorem Keyset_Decrypt_empty `{C : GoCrypto} (h : heap) (ks : Keyset)
    (rnd : entropy) (now : time.Time) (val : bytes) :
  keys ks = [] →
  Keyset_Decrypt h ks now val = Some ([], Err NoValidDecryptionKeyError) ∧
  Keyset_Encrypt h ks rnd now val = Some ([], Err EmptyKeysetError).
Proof.
  intros Hk. unfold Keyset_Decrypt, Keyset_Encrypt. rewrite Hk. done.
Qed.

Lemma Keyset_Decrypt_empty_witness :
  Keyset_Decrypt (C := Mock.crypto) Mock.store NewKeyset
    (Mock.at_second 100) Mock.hello
    = Some ([], Err NoValidDecryptionKeyError) ∧
  Keyset_Encrypt (C := Mock.crypto) Mock.store NewKeyset Mock.zeros
    (Mock.at_second 100) Mock.hello
    = Some ([], Err EmptyKeysetError).
Proof.
  apply (Keyset_Decrypt_empty (C := Mock.crypto) Mock.store NewKeyset
           Mock.zeros (Mock.at_second 100) Mock.hello).
  reflexivity.
Defined.

(** ** Keyset.Purge *)

Section Purge_loop.
Variables (h : heap) (now : Z) (orig : list ptr).

Lemma Purge_inv_start : Purge_inv h now orig 0 (orig, 0%nat).
Proof. unfold Purge_inv; simpl. by rewrite take_0, !drop_0. Qed.

Lemma Purge_inv_end_le (i : nat) (st : list ptr * nat) :
  Purge_inv h now orig i st → (st.2 ≤ i)%nat.
Proof.
  intros (_ & -> & _). etrans; [apply length_filter|].
  rewrite length_take. lia.
Qed.

Lemma Purge_body_inv (i : nat) (st : list ptr * nat) :
  Forall (live h) orig → (i < length orig)%nat →
  Purge_inv h now orig i st →
  ∃ st', Purge_body h now st i = Some st' ∧
         Purge_inv h now orig (S i) st'.
Proof.
  intros Hlive Hi Hinv. pose proof (Purge_inv_end_le _ _ Hinv) as Hle.
  destruct st as [arr end_]. destruct Hinv as (Hlen & Hend & Htake & Hdrop).
  simpl in *. destruct (lookup_lt_is_Some_2 orig i Hi) as [p Hp].
  assert (arr !! i = Some p) as Hp'.
  { rewrite <-(Nat.add_0_r i), <-lookup_drop, Hdrop, lookup_drop.
    by rewrite Nat.add_0_r. }
  rewrite Forall_lookup in Hlive. destruct (Hlive _ _ Hp) as [k Hk].
  assert (drop (S i) arr = drop (S i) orig) as Hdrop'.
  { replace (S i) with (i + 1)%nat by lia.
    by rewrite <-!drop_drop, Hdrop. }
  rewrite Hp'. simpl. rewrite Hk. simpl.
  destruct (expired k now) eqn:He.
  - eexists. split; [done|]. unfold Purge_inv; simpl.
    rewrite (take_S_r orig i p Hp), filter_app.
    rewrite filter_cons_False, filter_nil, app_nil_r; [done|].
    unfold unexpired. rewrite Hk, He. simpl. tauto.
  - rewrite bool_decide_true by lia.
    eexists. split; [done|]. unfold Purge_inv; simpl.
    rewrite (take_S_r orig i p Hp), filter_app.
    rewrite filter_cons_True, filter_nil
      by (unfold unexpired; rewrite Hk, He; simpl; tauto).
    rewrite length_insert, length_app. simpl.
    split; [done|]. split; [lia|]. split.
    + rewrite (take_S_r _ _ p) by (apply list_lookup_insert_eq; lia).
      by rewrite take_insert_ge, Htake.
    + by rewrite drop_insert_lt by lia.
Qed.

Lemma Purge_range_inv (n i : nat) (st : list ptr * nat) :
  Forall (live h) orig → (i + n = length orig)%nat →
  Purge_inv h now orig i st →
  ∃ st', Purge_range h now (seq i n) st = Some st' ∧
         Purge_inv h now orig (length orig) st'.
Proof.
  intros Hlive. revert i st. induction n as [|n IH]; intros i st Hn Hinv.
  - simpl. exists st. split; [done|]. by replace (length orig) with i by lia.
  - simpl. destruct (Purge_body_inv i st Hlive) as (st' & -> & Hinv');
      [lia|done|].
    simpl. apply IH; [lia | done].
Qed.
End Purge_loop.

Lemma filter_all {A} (P : A → Prop) `{∀ x, Decision (P x)} (l : list A) :
  Forall P l → filter P l = l.
Proof.
  induction 1 as [|x l Hx _ IH]; [done|].
  by rewrite filter_cons_True, IH.
Qed.

Lemma Purge_filter (h : heap) (ks : Keyset) (now : time.Time) :
  Keyset_ok h ks →
  Purge h ks now =
    Some (set_keys ks
            (filter (λ p, unexpired h (time.Unix now) p) (keys ks))).
Proof.
  intros Hok. unfold Purge.
  destruct (Purge_range_inv h (time.Unix now) (keys ks)
              (length (keys ks)) 0 (keys ks, 0%nat) Hok)
    as ([arr end_] & -> & Hlen & Hend & Htake & _);
    [done | apply Purge_inv_start |].
  simpl in *. rewrite (take_ge (keys ks)) in Hend, Htake by lia.
  rewrite bool_decide_true, Htake; [done|].
  rewrite Hend, Hlen. apply length_filter.
Qed.

(** C5 as stated fails on a negative [ExpiresUnix]: the second key, stamped
    -100, is expired at second 500 by the specification's test, and [Purge]
    at second 500 keeps it. *)
Lemma Purge_negative_counterexample :
  ∃ k,
    deref MockMore.odd Mock.p2 = Some k ∧
    ExpiresUnix k = -100 ∧
    isExpired_spec k 500 = true ∧
    keys <$> Purge MockMore.odd (mkKeyset [Mock.p2; Mock.p1] 0)
               (Mock.at_second 500) = Some [Mock.p2; Mock.p1].
Proof.
  eexists. split; [vm_compute; reflexivity|].
  repeat split; vm_compute; reflexivity.
Qed.

(** C5, amended. [Purge] on a keyset of live keys succeeds and removes
    exactly the keys whose expiry is positive and before the time of the
    call: what it leaves are the keys with a zero or negative expiry or one
    not before that time, in their old order, nothing else of the keyset
    changing; a keyset with no key to remove comes out as it went in, and so
    does any keyset purged a second time at the same time. *)
Theorem Purge_spec (h : heap) (ks : Keyset) (now : time.Time) :
  Keyset_ok h ks →
  ∃ ks',
    Purge h ks now = Some ks' ∧
    keys ks' = filter (λ p, in_force h (time.Unix now) p) (keys ks) ∧
    (∀ p, p ∈ keys ks' ↔
          p ∈ keys ks ∧
          ∃ k, deref h p = Some k ∧
               (ExpiresUnix k ≤ 0 ∨ time.Unix now ≤ ExpiresUnix k)) ∧
    keys ks' `sublist_of` keys ks ∧
    TypeID ks' = TypeID ks ∧
    (Forall (λ p, in_force h (time.Unix now) p) (keys ks) → ks' = ks) ∧
    Purge h ks' now = Some ks'.
Proof.
  intros Hok. eexists. split; [by apply Purge_filter|]. simpl.
  rewrite <-filter_in_force.
  split; [done|]. split.
  { intros p. rewrite list_elem_of_filter, Is_true_true, in_force_true.
    tauto. }
  split; [apply sublist_filter|]. split; [done|]. split.
  { intros Hall. rewrite filter_all by done. by destruct ks. }
  rewrite Purge_filter.
  - unfold set_keys; simpl. do 2 f_equal. rewrite <-filter_in_force.
    apply filter_all.
    apply Forall_forall. by intros p [? _]%list_elem_of_filter.
  - unfold Keyset_ok in *; simpl. rewrite Forall_forall in Hok.
    apply Forall_forall. intros p [_ ?]%list_elem_of_filter. auto.
Qed.

(** The example of C5: of three keys, the first and the last expired, the
    middle one alone is left. *)
Lemma Purge_spec_witness :
  let h := <[1%positive := set_ExpiresUnix Mock.K1 50]>
             (<[3%positive := set_ExpiresUnix Mock.K3 60]> Mock.store) in
  ∃ ks',
    Purge h (mkKeyset [Mock.p1; Mock.p2; Mock.p3] 7) (Mock.at_second 100)
      = Some ks' ∧
    keys ks' = [Mock.p2] ∧
    Purge h ks' (Mock.at_second 100) = Some ks'.
Proof.
  intros h.
  destruct (Purge_spec h (mkKeyset [Mock.p1; Mock.p2; Mock.p3] 7)
              (Mock.at_second 100))
    as (ks' & Hrun & Hkeys & _ & _ & _ & _ & Hagain).
  { repeat constructor; vm_compute; eauto. }
  exists ks'. split; [done|]. split; [|done].
  rewrite Hkeys. vm_compute. done.
Defined.

(** ** Round trip *)

Lemma Mock_laws : GoCryptoLaws Mock.crypto.
Proof.
  split; simpl.
  - intros key Hlen. unfold Mock.new_cipher.
    rewrite bool_decide_true by done. by eexists.
  - intros key Hlen. unfold Mock.new_cipher.
    by rewrite bool_decide_false by done.
  - intros c. by eexists.
  - intros g nonce plaintext. unfold Mock.open, Mock.seal.
    rewrite take_app_length, bool_decide_true by done.
    by rewrite drop_app_length.
Qed.

Section Roundtrip.
Context `{C : GoCrypto} {L : GoCryptoLaws C}.

Lemma length_io_ReadFull (rnd : entropy) (n : nat) (buf : bytes) :
  io_ReadFull rnd n = Ok buf → length buf = n.
Proof.
  destruct rnd as [e|f]; simpl; [done|]. intros [= <-].
  by rewrite length_fmap, length_seq.
Qed.

(** What [Encrypt] makes with a key AES takes and a random source that
    delivers, [Decrypt] opens with the same key. *)
Lemma Decrypt_Encrypt (stream : nat → byte) (val key : bytes) :
  length key ∈ [16; 24; 32]%nat →
  ∃ c, Encrypt (inr stream) val key = Ok c ∧ Decrypt c key = Ok val.
Proof.
  intros Hlen. unfold Encrypt, Decrypt.
  destruct (NewCipher_size_ok key Hlen) as [b ->].
  destruct (NewGCM_ok b) as [g ->].
  destruct (io_ReadFull (inr stream) (NonceSize g)) as [nonce|e] eqn:Hrd;
    [|done].
  apply length_io_ReadFull in Hrd.
  eexists. split; [done|]. simpl.
  rewrite bool_decide_false by (rewrite length_app; lia).
  rewrite take_app_length', drop_app_length' by done.
  apply Open_Seal.
Qed.

(** A key of the wrong size is turned down by both, with AES's error. *)
Lemma Encrypt_bad_size (rnd : entropy) (val key : bytes) :
  length key ∉ [16; 24; 32]%nat →
  Encrypt rnd val key = Err (KeySizeError (length key)) ∧
  Decrypt val key = Err (KeySizeError (length key)).
Proof.
  intros Hlen. unfold Encrypt, Decrypt.
  by rewrite (NewCipher_size_bad key Hlen).
Qed.
End Roundtrip.

(** C6. With a standard library that keeps its contract (AES takes the key,
    the random source delivers, GCM opens what it sealed), a keyset holding
    one key that is expired neither when encrypting nor when decrypting
    encrypts every plaintext to a value that it decrypts to that plaintext. *)
Theorem Keyset_roundtrip `{C : GoCrypto} {L : GoCryptoLaws C}
    (h : heap) (ks : Keyset) (p : ptr) (K : Key) (stream : nat → byte)
    (now1 now2 : time.Time) (P : bytes) :
  keys ks = [p] →
  deref h p = Some K →
  length (Value K) ∈ [16; 24; 32]%nat →
  expired K (time.Unix now1) = false →
  expired K (time.Unix now2) = false →
  ∃ c,
    Keyset_Encrypt h ks (inr stream) now1 P = Some ([p], Ok c) ∧
    Keyset_Decrypt h ks now2 c = Some ([p], Ok P).
Proof.
  intros Hk Hp Hlen He1 He2.
  destruct (Decrypt_Encrypt stream P (Value K) Hlen) as (c & Henc & Hdec).
  exists c. unfold Keyset_Encrypt, Keyset_Decrypt. rewrite Hk. simpl.
  rewrite Hp. simpl. by rewrite He1, He2, Henc, Hdec.
Qed.

Lemma Keyset_roundtrip_witness :
  ∃ c,
    Keyset_Encrypt (C := Mock.crypto) Mock.store (NewKeysetWithKey Mock.p1)
      Mock.zeros (Mock.at_second 100) Mock.hello = Some ([Mock.p1], Ok c) ∧
    Keyset_Decrypt (C := Mock.crypto) Mock.store (NewKeysetWithKey Mock.p1)
      (Mock.at_second 200) c = Some ([Mock.p1], Ok Mock.hello).
Proof.
  apply (Keyset_roundtrip (L := Mock_laws) Mock.store
           (NewKeysetWithKey Mock.p1) Mock.p1 Mock.K1 (λ _, Byte.x00)
           (Mock.at_second 100) (Mock.at_second 200) Mock.hello).
  - reflexivity.
  - reflexivity.
  - vm_compute. set_solver.
  - reflexivity.
  - reflexivity.
Defined.

(** ** Retiring a key at once *)

Section Used.
Context `{C : GoCrypto}.

(** [Encrypt] uses no key that fails the expiry test. *)
Lemma Keyset_Encrypt_used (h : heap) (ks : Keyset) (rnd : entropy)
    (now : time.Time) (val : bytes) (used : list ptr) (r : result bytes) :
  Keyset_Encrypt h ks rnd now val = Some (used, r) →
  ∀ p, p ∈ used → unexpired h (time.Unix now) p = true.
Proof.
  unfold Keyset_Encrypt. destruct (keys ks) as [|p0 rest]; simpl.
  - intros [= <- <-] p Hp. by apply elem_of_nil in Hp.
  - destruct (deref h p0) as [k|] eqn:Hk; [|done]. simpl.
    destruct (expired k (time.Unix now)) eqn:He.
    + intros [= <- <-] p Hp. by apply elem_of_nil in Hp.
    + intros [= <- <-] p ->%list_elem_of_singleton.
      apply unexpired_true. eauto.
Qed.

(** [Decrypt] tries no key that fails the expiry test. *)
Lemma Keyset_Decrypt_tried (h : heap) (ks : Keyset) (now : time.Time)
    (val : bytes) (tried : list ptr) (r : result bytes) :
  Keyset_Decrypt h ks now val = Some (tried, r) →
  ∀ p, p ∈ tried → unexpired h (time.Unix now) p = true.
Proof.
  intros Hrun p Hp.
  by destruct (Decrypt_range_tried _ _ _ _ _ _ Hrun p Hp).
Qed.
End Used.

(** C8 as stated fails in two ways. Rotating with [expireAfter] zero at
    second 100 stamps the previous key with 100, and for the rest of that
    second the key is not expired: [Decrypt] tries it and opens with it what
    it had sealed. Rotating with [expireAfter] of minus 100 seconds stamps it
    with 0, which means no expiry: the key is still tried a million seconds
    later. *)
Lemma RotateIn_nonpositive_counterexample :
  ∃ c h' ks' h'' ks'',
    Encrypt (C := Mock.crypto) Mock.zeros Mock.hello (Value Mock.K1) = Ok c ∧
    RotateIn Mock.store (NewKeysetWithKey Mock.p1) Mock.p2
      0 (Mock.at_second 100) = Some (h', ks') ∧
    ExpiresUnix <$> deref h' Mock.p1 = Some 100 ∧
    Keyset_Decrypt (C := Mock.crypto) h' ks' (Mock.at_second 100) c
      = Some ([Mock.p2; Mock.p1], Ok Mock.hello) ∧
    RotateIn Mock.store (NewKeysetWithKey Mock.p1) Mock.p2
      (-100 * time.Second) (Mock.at_second 100) = Some (h'', ks'') ∧
    ExpiresUnix <$> deref h'' Mock.p1 = Some 0 ∧
    Keyset_Decrypt (C := Mock.crypto) h'' ks'' (Mock.at_second 1000000) c
      = Some ([Mock.p2; Mock.p1], Ok Mock.hello).
Proof.
  eexists _, _, _, _, _. split; [vm_compute; reflexivity|].
  split; [vm_compute; reflexivity|].
  split; [vm_compute; reflexivity|].
  split; [vm_compute; reflexivity|].
  split; [vm_compute; reflexivity|].
  split; vm_compute; reflexivity.
Qed.

(** C8, amended. [RotateIn] takes a zero or negative [expireAfter] like any
    other and stamps the previous current key with
    [Unix (now + expireAfter)], which is not after [Unix now]. When that
    stamp is positive, the key is expired at every time whose Unix second is
    after the stamp, so at every time whose second is after the second of
    the rotation: from then on neither [Encrypt] nor [Decrypt] hands that
    key to the cipher. *)
Theorem RotateIn_nonpositive `{C : GoCrypto} (h : heap) (ks : Keyset)
    (key p0 : ptr) (expireAfter : time.Duration) (now : time.Time) :
  Keyset_ok h ks →
  keys ks !! 0%nat = Some p0 →
  expireAfter ≤ 0 →
  ∃ h' ks' k0',
    RotateIn h ks key expireAfter now = Some (h', ks') ∧
    deref h' p0 = Some k0' ∧
    ExpiresUnix k0' = time.Unix (time.Add now expireAfter) ∧
    ExpiresUnix k0' ≤ time.Unix now ∧
    ∀ t : time.Time,
      0 < ExpiresUnix k0' →
      ExpiresUnix k0' < time.Unix t →
      expired k0' (time.Unix t) = true ∧
      (∀ rnd val used r,
         Keyset_Encrypt h' ks' rnd t val = Some (used, r) → p0 ∉ used) ∧
      (∀ val tried r,
         Keyset_Decrypt h' ks' t val = Some (tried, r) → p0 ∉ tried).
Proof.
  intros Hok Hp0 Hd.
  destruct (Keyset_ok_head h ks p0 Hok Hp0) as [k0 Hk0].
  apply deref_Some in Hk0 as (l0 & -> & Hl0).
  destruct (keys ks) as [|p rest] eqn:Hk; [done|]. injection Hp0 as ->.
  eexists _, _, _. rewrite (RotateIn_cons _ _ _ _ _ l0 k0 rest) by done.
  split; [done|]. split; [apply deref_insert_eq|]. split; [done|].
  split; [by apply Unix_Add_nonpositive|]. simpl.
  intros t Hpos Hlt.
  match goal with |- context [Keyset_Encrypt ?m] => set (h' := m) end.
  assert (unexpired h' (time.Unix t) (Some l0) = false) as Hexp.
  { unfold unexpired, h'. rewrite deref_insert_eq.
    unfold expired; simpl. by rewrite !bool_decide_true by lia. }
  split; [unfold expired; simpl; by rewrite !bool_decide_true by lia|].
  split.
  - intros rnd val used r Hrun' Hin.
    apply (Keyset_Encrypt_used _ _ _ _ _ _ _ Hrun') in Hin. congruence.
  - intros val tried r Hrun' Hin.
    apply (Keyset_Decrypt_tried _ _ _ _ _ _ Hrun') in Hin. congruence.
Qed.

Lemma RotateIn_nonpositive_witness :
  ∃ h' ks',
    RotateIn Mock.store (NewKeysetWithKey Mock.p1) Mock.p2
      0 (Mock.at_second 100) = Some (h', ks') ∧
    ExpiresUnix <$> deref h' Mock.p1 = Some 100 ∧
    ∀ val tried r,
      Keyset_Decrypt (C := Mock.crypto) h' ks' (Mock.at_second 101) val
        = Some (tried, r) → Mock.p1 ∉ tried.
Proof.
  destruct (RotateIn_nonpositive (C := Mock.crypto) Mock.store
              (NewKeysetWithKey Mock.p1) Mock.p2 Mock.p1 0
              (Mock.at_second 100))
    as (h' & ks' & k0' & Hrun & Hk0' & Hstamp & _ & Hlater).
  { repeat constructor; vm_compute; eauto. }
  { reflexivity. }
  { lia. }
  exists h', ks'. split; [done|].
  assert (ExpiresUnix k0' = 100) as Hs by (rewrite Hstamp; reflexivity).
  split; [by rewrite Hk0'; simpl; rewrite Hs|].
  destruct (Hlater (Mock.at_second 101)) as (_ & _ & Hdec);
    [lia | rewrite Hs; reflexivity | done].
Defined.

(** ** Keys of the wrong size *)

Lemma NewKey_deref (h : heap) (now : time.Time) (key256 : bytes) :
  deref (NewKey h now key256).1 (NewKey h now key256).2
    = Some (mkKey key256 (time.Unix now) 0).
Proof. unfold NewKey, alloc; simpl. apply deref_insert_eq. Qed.

Lemma NewKey_frame (h : heap) (now : time.Time) (key256 : bytes) (q : ptr) :
  live h q → deref (NewKey h now key256).1 q = deref h q.
Proof.
  intros [k (l & -> & Hl)%deref_Some]. unfold NewKey, alloc.
  cbn [fst]. apply deref_insert_ne. intros [= ->].
  apply (is_fresh (dom h)), elem_of_dom. eauto.
Qed.

Section Single.
Context `{C : GoCrypto}.

Lemma Keyset_Encrypt_single (h : heap) (p : ptr) (k : Key) (rnd : entropy)
    (now : time.Time) (val : bytes) :
  deref h p = Some k → expired k (time.Unix now) = false →
  Keyset_Encrypt h (NewKeysetWithKey p) rnd now val
    = Some ([p], Encrypt rnd val (Value k)).
Proof.
  intros Hp He. unfold Keyset_Encrypt; simpl. rewrite Hp; simpl.
  by rewrite He.
Qed.

Lemma Keyset_Decrypt_single (h : heap) (p : ptr) (k : Key)
    (now : time.Time) (val : bytes) :
  deref h p = Some k → expired k (time.Unix now) = false →
  Keyset_Decrypt h (NewKeysetWithKey p) now val
    = Some ([p], match Decrypt val (Value k) with
                 | Ok res => Ok res
                 | Err _ => Err NoValidDecryptionKeyError
                 end).
Proof.
  intros Hp He. unfold Keyset_Decrypt; simpl. rewrite Hp; simpl.
  rewrite He. by destruct (Decrypt val (Value k)).
Qed.
End Single.

(** C9 as stated fails for [Decrypt]: with a key of three bytes alone in the
    keyset, the cipher's refusal of the key ([KeySizeError]) is what the
    package's [Decrypt] answers, and it is not what the keyset's [Decrypt]
    answers. *)
Lemma NewKey_short_counterexample :
  let h := (NewKey ∅ (Mock.at_second 100) Mock.short).1 in
  let p := (NewKey ∅ (Mock.at_second 100) Mock.short).2 in
  Decrypt (C := Mock.crypto) Mock.hello Mock.short = Err (KeySizeError 3) ∧
  Keyset_Decrypt (C := Mock.crypto) h (NewKeysetWithKey p)
    (Mock.at_second 200) Mock.hello
    = Some ([p], Err NoValidDecryptionKeyError) ∧
  NoValidDecryptionKeyError ≠ KeySizeError 3.
Proof.
  split; [vm_compute; reflexivity|].
  split; [vm_compute; reflexivity|]. intros [=].
Qed.

(** C9, amended. [NewKey] takes material of any length and stores it as it
    is, with no expiry, touching no other key. When the length is one AES
    does not take, [Encrypt] on a keyset with that key at index 0 answers
    with the cipher's [KeySizeError]; [Decrypt] on that keyset tries the key,
    the cipher refuses it with the same error, and [Decrypt] answers with
    [NoValidDecryptionKeyError] instead. No error of the cipher ever comes
    out of the keyset's [Decrypt]. *)
Theorem NewKey_no_validation `{C : GoCrypto} {L : GoCryptoLaws C}
    (h : heap) (created : time.Time) (material : bytes) :
  let h' := (NewKey h created material).1 in
  let p := (NewKey h created material).2 in
  deref h' p = Some (mkKey material (time.Unix created) 0) ∧
  (∀ q, live h q → deref h' q = deref h q) ∧
  (∀ ks now val tried e,
     Keyset_Decrypt h' ks now val = Some (tried, Err e) →
     e = NoValidDecryptionKeyError) ∧
  (length material ∉ [16; 24; 32]%nat →
   ∀ rnd now val,
     Keyset_Encrypt h' (NewKeysetWithKey p) rnd now val
       = Some ([p], Err (KeySizeError (length material))) ∧
     Decrypt val material = Err (KeySizeError (length material)) ∧
     Keyset_Decrypt h' (NewKeysetWithKey p) now val
       = Some ([p], Err NoValidDecryptionKeyError)).
Proof.
  intros h' p. split; [apply NewKey_deref|].
  split; [intros q; apply NewKey_frame|].
  split; [intros ks now val tried e; apply Decrypt_range_error|].
  intros Hlen rnd now val.
  destruct (Encrypt_bad_size rnd val material Hlen) as [Henc Hdec].
  pose proof (NewKey_deref h created material) as Hp. fold h' p in Hp.
  rewrite (Keyset_Encrypt_single h' p _ rnd now val Hp eq_refl).
  rewrite (Keyset_Decrypt_single h' p _ now val Hp eq_refl).
  simpl. by rewrite Henc, Hdec.
Qed.

Lemma NewKey_no_validation_witness :
  let h := (NewKey ∅ (Mock.at_second 100) Mock.short).1 in
  let p := (NewKey ∅ (Mock.at_second 100) Mock.short).2 in
  Value <$> deref h p = Some Mock.short ∧
  Keyset_Encrypt (C := Mock.crypto) h (NewKeysetWithKey p) Mock.zeros
    (Mock.at_second 200) Mock.hello = Some ([p], Err (KeySizeError 3)).
Proof.
  intros h p.
  destruct (NewKey_no_validation (L := Mock_laws) ∅ (Mock.at_second 100)
              Mock.short) as (Hp & _ & _ & Hbad).
  fold h p in Hp, Hbad. split; [by rewrite Hp|].
  assert (length Mock.short ∉ [16; 24; 32]%nat) as Hlen.
  { rewrite !elem_of_cons, elem_of_nil. simpl. lia. }
  destruct (Hbad Hlen Mock.zeros (Mock.at_second 200) Mock.hello)
    as (Henc & _ & _).
  exact Henc.
Defined.

(** * More of the package *)

(** ** Encrypt and Decrypt *)

(** X1. With a key of a size AES takes and a random source that delivers,
    [Encrypt] answers with the nonce, which is the first [NonceSize] bytes of
    the source, followed by the sealed text; the answer is never shorter than
    a nonce, and [Decrypt] with the same key gives the plaintext back. *)
Theorem Encrypt_framing `{C : GoCrypto} {L : GoCryptoLaws C}
    (stream : nat → byte) (val key : bytes) :
  length key ∈ [16; 24; 32]%nat →
  ∃ b g,
    aes_NewCipher key = Ok b ∧ cipher_NewGCM b = Ok g ∧
    let nonce := stream <$> seq 0 (NonceSize g) in
    Encrypt (inr stream) val key = Ok (nonce ++ Seal g nonce val) ∧
    (NonceSize g ≤ length (nonce ++ Seal g nonce val))%nat ∧
    Decrypt (nonce ++ Seal g nonce val) key = Ok val.
Proof.
  intros Hlen.
  destruct (NewCipher_size_ok key Hlen) as [b Hb].
  destruct (NewGCM_ok b) as [g Hg].
  exists b, g. split; [done|]. split; [done|]. intros nonce.
  assert (length nonce = NonceSize g) as Hn
    by (unfold nonce; by rewrite length_fmap, length_seq).
  unfold Encrypt, Decrypt. rewrite Hb, Hg. simpl. fold nonce.
  split; [done|]. split; [rewrite length_app; lia|].
  rewrite bool_decide_false by (rewrite length_app; lia).
  rewrite take_app_length', drop_app_length' by done.
  apply Open_Seal.
Qed.

Lemma Encrypt_framing_witness :
  Encrypt (C := Mock.crypto) Mock.zeros Mock.hello (Value Mock.K1)
    = Ok (replicate 12 Byte.x00
          ++ Seal (GoCrypto := Mock.crypto) (Value Mock.K1)
               (replicate 12 Byte.x00) Mock.hello).
Proof.
  destruct (Encrypt_framing (L := Mock_laws) (λ _, Byte.x00) Mock.hello
              (Value Mock.K1)) as (b & g & Hb & Hg & Henc & _).
  { vm_compute. set_solver. }
  injection Hb as <-. injection Hg as <-. exact Henc.
Defined.

(** X2. The errors of [Encrypt]. A key of a size AES does not take is
    answered with AES's [KeySizeError] before the random source is looked
    at, whatever that source would do; with a good key, the error of the
    random source is what [Encrypt] answers, as it is. *)
Theorem Encrypt_errors `{C : GoCrypto} {L : GoCryptoLaws C}
    (val key : bytes) :
  (length key ∉ [16; 24; 32]%nat →
   ∀ rnd, Encrypt rnd val key = Err (KeySizeError (length key))) ∧
  (length key ∈ [16; 24; 32]%nat →
   (∀ b g, aes_NewCipher key = Ok b → cipher_NewGCM b = Ok g →
           NonceSize g ≠ 0%nat) →
   ∀ e, Encrypt (inl e) val key = Err e).
Proof.
  split.
  - intros Hlen rnd. unfold Encrypt. by rewrite (NewCipher_size_bad key Hlen).
  - intros Hlen _ e. unfold Encrypt.
    destruct (NewCipher_size_ok key Hlen) as [b ->].
    by destruct (NewGCM_ok b) as [g ->].
Qed.

Lemma Encrypt_errors_witness :
  Encrypt (C := Mock.crypto) MockMore.broken Mock.hello Mock.short
    = Err (KeySizeError 3) ∧
  Encrypt (C := Mock.crypto) MockMore.broken Mock.hello (Value Mock.K1)
    = Err (lib_error "unexpected EOF").
Proof.
  destruct (Encrypt_errors (L := Mock_laws) Mock.hello Mock.short)
    as [Hbad _].
  destruct (Encrypt_errors (L := Mock_laws) Mock.hello (Value Mock.K1))
    as [_ Hgood].
  split.
  - apply Hbad. rewrite !elem_of_cons, elem_of_nil. simpl. lia.
  - apply Hgood; [vm_compute; set_solver | by intros b g _ [= <-]].
Defined.

(** X3. The errors of [Decrypt]. A key of a size AES does not take is
    answered with [KeySizeError] whatever the value; with a good key, a value
    shorter than a nonce is answered with the package's own error and GCM is
    not asked to open anything, and any longer value is split into nonce and
    sealed text and the answer is GCM's. *)
Theorem Decrypt_errors `{C : GoCrypto} {L : GoCryptoLaws C} (key : bytes) :
  (length key ∉ [16; 24; 32]%nat →
   ∀ val, Decrypt val key = Err (KeySizeError (length key))) ∧
  (length key ∈ [16; 24; 32]%nat →
   ∃ b g,
     aes_NewCipher key = Ok b ∧ cipher_NewGCM b = Ok g ∧
     (∀ val, (length val < NonceSize g)%nat →
        Decrypt val key
          = Err (errors_New "the cipher text value is too short")) ∧
     (∀ nonce sealed, length nonce = NonceSize g →
        Decrypt (nonce ++ sealed) key = Open g nonce sealed)).
Proof.
  split.
  - intros Hlen val. unfold Decrypt. by rewrite (NewCipher_size_bad key Hlen).
  - intros Hlen.
    destruct (NewCipher_size_ok key Hlen) as [b Hb].
    destruct (NewGCM_ok b) as [g Hg].
    exists b, g. split; [done|]. split; [done|].
    unfold Decrypt. rewrite Hb, Hg. simpl. split.
    + intros val Hshort. by rewrite bool_decide_true.
    + intros nonce sealed Hn.
      rewrite bool_decide_false by (rewrite length_app; lia).
      by rewrite take_app_length', drop_app_length'.
Qed.

Lemma Decrypt_errors_witness :
  Decrypt (C := Mock.crypto) Mock.hello (Value Mock.K1)
    = Err (errors_New "the cipher text value is too short") ∧
  Decrypt (C := Mock.crypto) Mock.hello Mock.short = Err (KeySizeError 3).
Proof.
  destruct (Decrypt_errors (L := Mock_laws) (Value Mock.K1)) as [_ Hgood].
  destruct (Decrypt_errors (L := Mock_laws) Mock.short) as [Hbad _].
  split.
  - destruct Hgood as (b & g & Hb & Hg & Hshort & _);
      [vm_compute; set_solver|].
    injection Hb as <-. injection Hg as <-. apply Hshort. simpl. lia.
  - apply Hbad. rewrite !elem_of_cons, elem_of_nil. simpl. lia.
Defined.

(** ** HashForString *)

(** X4. Whatever the string, [HashForString] makes a key of 32 bytes, so one
    AES takes: what [Encrypt] makes under it with a random source that
    delivers, [Decrypt] opens under the hash of the same string. *)
Theorem HashForString_roundtrip `{C : GoCrypto} {L : GoCryptoLaws C}
    `{H : GoHash} {HL : GoHashLaws H}
    (s : string) (stream : nat → byte) (val : bytes) :
  length (HashForString s) = 32%nat ∧
  ∃ c, Encrypt (inr stream) val (HashForString s) = Ok c ∧
       Decrypt c (HashForString s) = Ok val.
Proof.
  assert (length (HashForString s) = 32%nat) as Hlen
    by apply Sum256_size.
  split; [done|]. apply Decrypt_Encrypt. rewrite Hlen. set_solver.
Qed.

Lemma MockMore_hash_laws : GoHashLaws MockMore.hash.
Proof.
  split. intros data. unfold sha256_Sum256, MockMore.hash.
  rewrite length_take, length_app, length_replicate. lia.
Qed.

Lemma HashForString_roundtrip_witness :
  ∃ c,
    Encrypt (C := Mock.crypto) Mock.zeros Mock.hello
      (HashForString (H := MockMore.hash) "secret") = Ok c ∧
    Decrypt (C := Mock.crypto) c
      (HashForString (H := MockMore.hash) "secret") = Ok Mock.hello.
Proof.
  exact (proj2 (HashForString_roundtrip (L := Mock_laws)
                  (HL := MockMore_hash_laws) "secret" (λ _, Byte.x00)
                  Mock.hello)).
Defined.

(** ** GenerateRandomBytes and RandUInt32 *)

Lemma GenerateRandomBytes_stream (stream : nat → byte) (n : nat) :
  GenerateRandomBytes (inr stream) n = WOk (stream <$> seq 0 n).
Proof.
  unfold GenerateRandomBytes, io_ReadFull_buf. case_bool_decide as Hn.
  - by rewrite Hn.
  - done.
Qed.

(** X5. [GenerateRandomBytes n] answers with exactly [n] bytes, the first [n]
    of the random source, when the source delivers. When it does not, the
    answer for a positive [n] is an error that wraps the error of the source
    ([errors.Unwrap] gives it back), and the answer for [n = 0] is still the
    empty slice, since nothing had to be read. *)
Theorem GenerateRandomBytes_spec (n : nat) :
  (∀ stream, ∃ buf,
     GenerateRandomBytes (inr stream) n = WOk buf ∧
     length buf = n ∧ ∀ i, (i < n)%nat → buf !! i = Some (stream i)) ∧
  (∀ e, n ≠ 0%nat →
     ∃ err, GenerateRandomBytes (inl e) n = WErr err ∧
            errors_Unwrap err = Some (plain e)) ∧
  (∀ rnd, n = 0%nat → GenerateRandomBytes rnd n = WOk []).
Proof.
  split; [|split].
  - intros stream. exists (stream <$> seq 0 n).
    split; [apply GenerateRandomBytes_stream|].
    split; [by rewrite length_fmap, length_seq|].
    intros i Hi. apply list_lookup_fmap_Some. exists i.
    split; [done|]. by apply lookup_seq_lt.
  - intros e Hn. unfold GenerateRandomBytes, io_ReadFull_buf.
    rewrite bool_decide_false by done. simpl. eauto.
  - intros rnd ->. done.
Qed.

Lemma GenerateRandomBytes_spec_witness :
  GenerateRandomBytes MockMore.counting 3
    = WOk [Byte.x00; Byte.x01; Byte.x02] ∧
  GenerateRandomBytes MockMore.broken 0 = WOk [].
Proof.
  destruct (GenerateRandomBytes_spec 0) as (_ & _ & Hzero).
  split; [reflexivity | by apply Hzero].
Defined.

Lemma byte_Z_range (b : byte) : 0 ≤ byte_Z b < 256.
Proof.
  unfold byte_Z. pose proof (Byte.to_N_bounded b). lia.
Qed.

(** Or-ing a number below [2 ^ n] with a multiple of [2 ^ n] adds them. *)
Lemma lor_shiftl_add (a b n : Z) :
  0 ≤ n → 0 ≤ a < 2 ^ n → Z.lor a (b * 2 ^ n) = a + b * 2 ^ n.
Proof.
  intros Hn Ha. rewrite <-Z.shiftl_mul_pow2 by done.
  assert (Z.land a (Z.shiftl b n) = 0) as Hland.
  { apply Z.bits_inj'. intros i Hi. rewrite Z.land_spec, Z.bits_0.
    destruct (Z.lt_ge_cases i n) as [Hlt|Hge].
    - rewrite Z.shiftl_spec_low by done. apply andb_false_r.
    - rewrite <-(Z.mod_small a (2 ^ n)) by done.
      by rewrite Z.mod_pow2_bits_high by lia. }
  rewrite Z.add_nocarry_lxor by done. symmetry. by apply Z.lxor_lor.
Qed.

Lemma BigEndian_Uint32_value (b0 b1 b2 b3 : byte) (rest : bytes) :
  BigEndian_Uint32 (b0 :: b1 :: b2 :: b3 :: rest)
    = Some (byte_Z b0 * 2 ^ 24 + byte_Z b1 * 2 ^ 16
            + byte_Z b2 * 2 ^ 8 + byte_Z b3).
Proof.
  unfold BigEndian_Uint32; simpl. f_equal.
  pose proof (byte_Z_range b0). pose proof (byte_Z_range b1).
  pose proof (byte_Z_range b2). pose proof (byte_Z_range b3).
  unfold uint32.
  rewrite !(Z.mod_small (byte_Z _)) by lia.
  rewrite !Z.shiftl_mul_pow2 by lia.
  rewrite (Z.mod_small (byte_Z b2 * 2 ^ 8)) by lia.
  rewrite (Z.mod_small (byte_Z b1 * 2 ^ 16)) by lia.
  rewrite (Z.mod_small (byte_Z b0 * 2 ^ 24)) by lia.
  rewrite (lor_shiftl_add (byte_Z b3)) by lia.
  rewrite (lor_shiftl_add _ (byte_Z b1)) by lia.
  rewrite (lor_shiftl_add _ (byte_Z b0)) by lia. lia.
Qed.

(** X6. [RandUInt32] never panics. When the random source delivers, it draws
    256 bytes and answers with the big-endian number of the first four, a
    number below [2 ^ 32]; the other 252 bytes play no part. When the source
    does not deliver, it answers with the error of [GenerateRandomBytes]. *)
Theorem RandUInt32_spec :
  (∀ stream, ∃ v,
     RandUInt32 (inr stream) = Some (WOk v) ∧
     v = byte_Z (stream 0%nat) * 2 ^ 24 + byte_Z (stream 1%nat) * 2 ^ 16
         + byte_Z (stream 2%nat) * 2 ^ 8 + byte_Z (stream 3%nat) ∧
     0 ≤ v < 2 ^ 32) ∧
  (∀ stream stream',
     (∀ i, (i < 4)%nat → stream i = stream' i) →
     RandUInt32 (inr stream) = RandUInt32 (inr stream')) ∧
  (∀ e, RandUInt32 (inl e)
        = Some (WErr (fmt_Errorf "GenerateRandomBytes failed: %w"
                        (plain e)))).
Proof.
  assert (∀ stream,
    RandUInt32 (inr stream)
      = Some (WOk (byte_Z (stream 0%nat) * 2 ^ 24
                   + byte_Z (stream 1%nat) * 2 ^ 16
                   + byte_Z (stream 2%nat) * 2 ^ 8
                   + byte_Z (stream 3%nat)))) as Hval.
  { intros stream. unfold RandUInt32.
    rewrite GenerateRandomBytes_stream.
    change (Nat.shiftl 1 8) with (4 + 252)%nat.
    rewrite seq_app, fmap_app. cbn [seq fmap list_fmap app].
    by rewrite BigEndian_Uint32_value. }
  split; [|split].
  - intros stream. eexists. split; [apply Hval|]. split; [done|].
    pose proof (byte_Z_range (stream 0%nat)).
    pose proof (byte_Z_range (stream 1%nat)).
    pose proof (byte_Z_range (stream 2%nat)).
    pose proof (byte_Z_range (stream 3%nat)). lia.
  - intros stream stream' Hsame. rewrite !Hval.
    by rewrite !Hsame by lia.
  - done.
Qed.

Lemma RandUInt32_spec_witness :
  RandUInt32 MockMore.counting = Some (WOk 66051) ∧
  RandUInt32 MockMore.broken
    = Some (WErr (fmt_Errorf "GenerateRandomBytes failed: %w"
                    (plain (lib_error "unexpected EOF")))).
Proof.
  destruct RandUInt32_spec as (Hval & _ & Herr).
  split; [|apply Herr].
  destruct (Hval (λ i, default Byte.x00 (Byte.of_nat (i `mod` 256)%nat)))
    as (v & Hrun & -> & _).
  exact Hrun.
Defined.

(** ** NewRandomKey *)

Lemma NewKey_fresh (h : heap) (now : time.Time) (key256 : bytes) :
  ¬ live h (NewKey h now key256).2.
Proof.
  unfold NewKey, alloc, live, deref; simpl. intros [k Hk].
  apply (is_fresh (dom h)), elem_of_dom. eauto.
Qed.

Lemma NewRandomKey_stream (h : heap) (stream : nat → byte)
    (now : time.Time) :
  NewRandomKey h (inr stream) now
    = ((NewKey h now (stream <$> seq 0 32)).1,
       WOk (NewKey h now (stream <$> seq 0 32)).2).
Proof. unfold NewRandomKey. by rewrite GenerateRandomBytes_stream. Qed.

(** X7. With a random source that delivers, [NewRandomKey] makes a new [Key]
    object: its pointer is none the store had, so it is in no keyset of live
    keys and such keysets stay so; its [Value] is the first 32 bytes of the
    source, its creation time the clock's second, and it has no expiry;
    every object the store had is as it was. With a source that does not
    deliver, it makes no object and answers with an error that wraps the
    error of [GenerateRandomBytes], which wraps the error of the source. *)
Theorem NewRandomKey_spec (h : heap) (now : time.Time) :
  (∀ stream, ∃ h' p k,
     NewRandomKey h (inr stream) now = (h', WOk p) ∧
     ¬ live h p ∧
     deref h' p = Some k ∧
     Value k = stream <$> seq 0 32 ∧ length (Value k) = 32%nat ∧
     CreatedUnix k = time.Unix now ∧ ExpiresUnix k = 0 ∧
     (∀ q, live h q → deref h' q = deref h q) ∧
     (∀ ks, Keyset_ok h ks → (p ∉ keys ks) ∧ Keyset_ok h' ks)) ∧
  (∀ e, ∃ err inner,
     NewRandomKey h (inl e) now = (h, WErr err) ∧
     errors_Unwrap err = Some inner ∧
     errors_Unwrap inner = Some (plain e)).
Proof.
  split.
  - intros stream. eexists _, _, _.
    split; [apply NewRandomKey_stream|].
    split; [apply NewKey_fresh|].
    split; [apply NewKey_deref|]. cbn [Value CreatedUnix ExpiresUnix].
    split; [done|]. split; [by rewrite length_fmap, length_seq|].
    split; [done|]. split; [done|].
    split; [intros q; apply NewKey_frame|].
    intros ks Hok. unfold Keyset_ok in *. rewrite Forall_forall in Hok.
    split.
    + intros Hin. by apply (NewKey_fresh h now (stream <$> seq 0 32)), Hok.
    + apply Forall_forall. intros q Hq. unfold live.
      rewrite NewKey_frame by auto. by apply Hok.
  - intros e. eexists _, _. split; [reflexivity|]. split; reflexivity.
Qed.

Lemma NewRandomKey_spec_witness :
  ∃ h' p,
    NewRandomKey Mock.store MockMore.counting (Mock.at_second 100)
      = (h', WOk p) ∧
    (p ∉ [Mock.p1; Mock.p2; Mock.p3]) ∧
    (λ k, take 3 (Value k)) <$> deref h' p
      = Some [Byte.x00; Byte.x01; Byte.x02].
Proof.
  destruct (NewRandomKey_spec Mock.store (Mock.at_second 100)) as [Hok _].
  destruct (Hok (λ i, default Byte.x00 (Byte.of_nat (i `mod` 256)%nat)))
    as (h' & p & k & Hrun & _ & Hk & Hv & _ & _ & _ & _ & Hks).
  exists h', p. split; [exact Hrun|]. split.
  - apply (Hks (mkKeyset [Mock.p1; Mock.p2; Mock.p3] 0)).
    repeat constructor; vm_compute; eauto.
  - rewrite Hk. simpl. rewrite Hv. reflexivity.
Defined.

(** X8. A key from [NewRandomKey], alone in a keyset, encrypts every
    plaintext to a value that the keyset decrypts to that plaintext, at any
    two times: the key has no expiry and the size AES takes. *)
Theorem NewRandomKey_roundtrip `{C : GoCrypto} {L : GoCryptoLaws C}
    (h : heap) (key_stream nonce_stream : nat → byte)
    (created t1 t2 : time.Time) (P : bytes) :
  ∃ h' p c,
    NewRandomKey h (inr key_stream) created = (h', WOk p) ∧
    Keyset_Encrypt h' (NewKeysetWithKey p) (inr nonce_stream) t1 P
      = Some ([p], Ok c) ∧
    Keyset_Decrypt h' (NewKeysetWithKey p) t2 c = Some ([p], Ok P).
Proof.
  set (v := key_stream <$> seq 0 32).
  destruct (Decrypt_Encrypt nonce_stream P v) as (c & Henc & Hdec).
  { unfold v. rewrite length_fmap, length_seq. set_solver. }
  eexists _, _, c. split; [apply NewRandomKey_stream|]. fold v.
  pose proof (NewKey_deref h created v) as Hp.
  rewrite (Keyset_Encrypt_single _ _ _ _ t1 P Hp eq_refl).
  rewrite (Keyset_Decrypt_single _ _ _ t2 c Hp eq_refl).
  simpl. by rewrite Henc, Hdec.
Qed.

Lemma NewRandomKey_roundtrip_witness :
  ∃ h' p c,
    NewRandomKey ∅ MockMore.counting (Mock.at_second 100) = (h', WOk p) ∧
    Keyset_Encrypt (C := Mock.crypto) h' (NewKeysetWithKey p) Mock.zeros
      (Mock.at_second 200) Mock.hello = Some ([p], Ok c) ∧
    Keyset_Decrypt (C := Mock.crypto) h' (NewKeysetWithKey p)
      (Mock.at_second 300) c = Some ([p], Ok Mock.hello).
Proof.
  exact (NewRandomKey_roundtrip (L := Mock_laws) ∅
           (λ i, default Byte.x00 (Byte.of_nat (i `mod` 256)%nat))
           (λ _, Byte.x00) (Mock.at_second 100) (Mock.at_second 200)
           (Mock.at_second 300) Mock.hello).
Defined.

(** ** Purge, then the other operations *)

Lemma expired_mono (k : Key) (now now' : Z) :
  now ≤ now' → expired k now = true → expired k now' = true.
Proof.
  unfold expired. rewrite !andb_true_iff, !bool_decide_eq_true. lia.
Qed.

Lemma unexpired_mono (h : heap) (now now' : Z) (p : ptr) :
  now ≤ now' → unexpired h now' p = true → unexpired h now p = true.
Proof.
  intros Hle. unfold unexpired. destruct (deref h p) as [k|]; [|done].
  rewrite !negb_true_iff. intros He.
  destruct (expired k now) eqn:He'; [|done].
  by rewrite (expired_mono k now now' Hle He') in He.
Qed.

Lemma Purge_Keyset_ok (h : heap) (ks : Keyset) (now : Z) :
  Keyset_ok h ks →
  Keyset_ok h (set_keys ks (filter (λ p, unexpired h now p) (keys ks))).
Proof.
  unfold Keyset_ok; simpl. rewrite !Forall_forall.
  intros Hok p [_ Hp]%list_elem_of_filter. auto.
Qed.

Section Decrypt_filter.
Context `{C : GoCrypto}.

(** The loop of [Decrypt] does not see the expired keys. *)
Lemma Decrypt_range_filter (h : heap) (now : Z) (val : bytes)
    (l : list ptr) :
  Forall (live h) l →
  Decrypt_range h now val (filter (λ p, unexpired h now p) l)
    = Decrypt_range h now val l.
Proof.
  induction 1 as [|p l [k Hk] _ IH]; [done|]. simpl. rewrite Hk. simpl.
  destruct (expired k now) eqn:He.
  - rewrite filter_cons_False; [done|].
    unfold unexpired. rewrite Hk, He. simpl. tauto.
  - rewrite filter_cons_True
      by (unfold unexpired; rewrite Hk, He; simpl; tauto).
    simpl. rewrite Hk. simpl. rewrite He. by rewrite IH.
Qed.
End Decrypt_filter.

(** X9. Purging changes nothing to decryption: at the time of the purge, the
    purged keyset tries the same keys and gives the same answer as the
    keyset did, for every value. *)
Theorem Purge_Decrypt `{C : GoCrypto} (h : heap) (ks : Keyset)
    (now : time.Time) :
  Keyset_ok h ks →
  ∃ ks',
    Purge h ks now = Some ks' ∧
    ∀ val, Keyset_Decrypt h ks' now val = Keyset_Decrypt h ks now val.
Proof.
  intros Hok. eexists. split; [by apply Purge_filter|].
  intros val. unfold Keyset_Decrypt; simpl. by apply Decrypt_range_filter.
Qed.

Lemma Purge_Decrypt_witness :
  ∃ ks',
    Purge MockMore.aged (mkKeyset [Mock.p1; Mock.p2; Mock.p3] 0)
      (Mock.at_second 100) = Some ks' ∧
    keys ks' = [Mock.p2; Mock.p3] ∧
    Keyset_Decrypt (C := Mock.crypto) MockMore.aged ks' (Mock.at_second 100)
      Mock.letter
    = Keyset_Decrypt (C := Mock.crypto) MockMore.aged
        (mkKeyset [Mock.p1; Mock.p2; Mock.p3] 0) (Mock.at_second 100)
        Mock.letter.
Proof.
  destruct (Purge_Decrypt (C := Mock.crypto) MockMore.aged
              (mkKeyset [Mock.p1; Mock.p2; Mock.p3] 0) (Mock.at_second 100))
    as (ks' & Hrun & Hsame).
  { repeat constructor; vm_compute; eauto. }
  exists ks'. split; [done|]. split; [|apply Hsame].
  vm_compute in Hrun. by injection Hrun as <-.
Defined.

(** X10. Purging changes encryption. Before the purge, a keyset whose key at
    index 0 has an expiry that is positive and before [now] refuses to
    encrypt, with [NoValidKeyError]. After the purge, at the same time,
    [Encrypt] hands to the cipher the newest key of the old keyset that is
    not expired, an older one in that case, and answers what the package's
    [Encrypt] answers under it, result or error; it hands over no key only
    when every key was expired, and the error is then [EmptyKeysetError]. *)
Theorem Purge_Encrypt `{C : GoCrypto} (h : heap) (ks : Keyset)
    (rnd : entropy) (now : time.Time) (val : bytes) :
  Keyset_ok h ks →
  ∃ ks',
    Purge h ks now = Some ks' ∧
    (∀ p0 k0, keys ks !! 0%nat = Some p0 → deref h p0 = Some k0 →
       0 < ExpiresUnix k0 ∧ ExpiresUnix k0 < time.Unix now →
       Keyset_Encrypt h ks rnd now val = Some ([], Err NoValidKeyError)) ∧
    (filter (λ p, unexpired h (time.Unix now) p) (keys ks) = [] →
     Keyset_Encrypt h ks' rnd now val = Some ([], Err EmptyKeysetError)) ∧
    (∀ p rest,
       filter (λ p, unexpired h (time.Unix now) p) (keys ks) = p :: rest →
       ∃ k, deref h p = Some k ∧
            Keyset_Encrypt h ks' rnd now val
              = Some ([p], Encrypt rnd val (Value k))) ∧
    (∀ used r,
       Keyset_Encrypt h ks' rnd now val = Some (used, r) →
       used = [] → r = Err EmptyKeysetError).
Proof.
  intros Hok. eexists. split; [by apply Purge_filter|].
  assert (∀ p rest,
    filter (λ p, unexpired h (time.Unix now) p) (keys ks) = p :: rest →
    ∃ k, deref h p = Some k ∧
         Keyset_Encrypt h
           (set_keys ks
              (filter (λ p, unexpired h (time.Unix now) p) (keys ks)))
           rnd now val
         = Some ([p], Encrypt rnd val (Value k))) as Hsome.
  { intros p rest Hf. unfold Keyset_Encrypt; simpl. rewrite Hf. simpl.
    assert (p ∈ filter (λ p, unexpired h (time.Unix now) p) (keys ks))
      as [Hp _]%list_elem_of_filter by (rewrite Hf; left).
    apply Is_true_true, unexpired_true in Hp as (k & Hk & He).
    exists k. split; [done|]. rewrite Hk. simpl. by rewrite He. }
  split; [|split; [|split; [done|]]].
  - intros p0 k0 Hp0 Hk0 Hexp%expired_true_iff.
    unfold Keyset_Encrypt. destruct (keys ks) as [|q rest]; [done|].
    injection Hp0 as ->. simpl. rewrite Hk0. simpl. by rewrite Hexp.
  - intros Hf. unfold Keyset_Encrypt; simpl. by rewrite Hf.
  - intros used r Hrun ->.
    destruct (filter (λ p, unexpired h (time.Unix now) p) (keys ks))
      as [|p rest] eqn:Hf.
    + unfold Keyset_Encrypt in Hrun; simpl in Hrun.
      by injection Hrun as <-.
    + destruct (Hsome p rest eq_refl) as (k & _ & Hrun').
      rewrite Hrun' in Hrun. by injection Hrun.
Qed.

Lemma Purge_Encrypt_witness :
  Keyset_Encrypt (C := Mock.crypto) MockMore.aged
    (mkKeyset [Mock.p1; Mock.p2] 0) Mock.zeros (Mock.at_second 100)
    Mock.hello = Some ([], Err NoValidKeyError) ∧
  ∃ ks',
    Purge MockMore.aged (mkKeyset [Mock.p1; Mock.p2] 0) (Mock.at_second 100)
      = Some ks' ∧
    Keyset_Encrypt (C := Mock.crypto) MockMore.aged ks' Mock.zeros
      (Mock.at_second 100) Mock.hello
    = Some ([Mock.p2],
            Encrypt (C := Mock.crypto) Mock.zeros Mock.hello
              (Value Mock.K2)).
Proof.
  destruct (Purge_Encrypt (C := Mock.crypto) MockMore.aged
              (mkKeyset [Mock.p1; Mock.p2] 0) Mock.zeros (Mock.at_second 100)
              Mock.hello) as (ks' & Hrun & Hbefore & _ & Hsome & _).
  { repeat constructor; vm_compute; eauto. }
  split.
  - apply (Hbefore Mock.p1 (set_ExpiresUnix Mock.K1 50) eq_refl eq_refl).
    rewrite Unix_at_second. simpl. lia.
  - exists ks'. split; [done|].
    destruct (Hsome Mock.p2 []) as (k & Hk & Henc); [reflexivity|].
    injection Hk as <-. exact Henc.
Defined.

(** X11. A later purge makes an earlier one pointless: purging at one time
    and again at a time whose second is not earlier leaves what the second
    purge alone leaves. *)
Theorem Purge_later (h : heap) (ks : Keyset) (t1 t2 : time.Time) :
  Keyset_ok h ks →
  time.Unix t1 ≤ time.Unix t2 →
  ∃ ks1 ks2,
    Purge h ks t1 = Some ks1 ∧
    Purge h ks1 t2 = Some ks2 ∧
    Purge h ks t2 = Some ks2.
Proof.
  intros Hok Hle. eexists _, _. split; [by apply Purge_filter|].
  rewrite !Purge_filter by (done || by apply Purge_Keyset_ok).
  split; [done|]. unfold set_keys; simpl. do 2 f_equal.
  rewrite list_filter_filter. apply list_filter_iff. intros p.
  rewrite !Is_true_true. split; [|tauto].
  intros Hp. split; [done|]. by apply (unexpired_mono h _ _ p Hle).
Qed.

Lemma Purge_later_witness :
  ∃ ks1 ks2,
    Purge MockMore.aged (mkKeyset [Mock.p1; Mock.p2] 0) (Mock.at_second 10)
      = Some ks1 ∧
    Purge MockMore.aged ks1 (Mock.at_second 100) = Some ks2 ∧
    Purge MockMore.aged (mkKeyset [Mock.p1; Mock.p2] 0) (Mock.at_second 100)
      = Some ks2.
Proof.
  apply (Purge_later MockMore.aged (mkKeyset [Mock.p1; Mock.p2] 0)
           (Mock.at_second 10) (Mock.at_second 100)).
  - repeat constructor; vm_compute; eauto.
  - vm_compute. discriminate.
Defined.

(** X12. No operation puts a key that is not live into a keyset of live
    keys: rotating a live key in and purging both succeed and leave a
    keyset of live keys, so that a sequence of them never panics. *)
Theorem Keyset_ok_preserved (h : heap) (ks : Keyset) :
  Keyset_ok h ks →
  (∀ key expireAfter now, live h key →
     ∃ h' ks', RotateIn h ks key expireAfter now = Some (h', ks') ∧
               Keyset_ok h' ks') ∧
  (∀ now, ∃ ks', Purge h ks now = Some ks' ∧ Keyset_ok h ks').
Proof.
  intros Hok. split.
  - intros key expireAfter now Hkey.
    destruct (RotateIn h ks key expireAfter now) as [[h' ks']|] eqn:Hrun.
    + eexists _, _. split; [done|]. by eapply RotateIn_Keyset_ok.
    + exfalso. unfold RotateIn in Hrun.
      destruct (keys ks) as [|p0 rest] eqn:Hk; [done|].
      destruct (Keyset_ok_head h ks p0 Hok) as [k0 Hk0]; [by rewrite Hk|].
      apply deref_Some in Hk0 as (l0 & -> & Hl0).
      simpl in Hrun. unfold store_ExpiresUnix in Hrun. simpl in Hrun.
      by rewrite Hl0 in Hrun.
  - intros now. eexists. split; [by apply Purge_filter|].
    by apply Purge_Keyset_ok.
Qed.

Lemma Keyset_ok_preserved_witness :
  ∃ h' ks',
    RotateIn Mock.store (NewKeysetWithKey Mock.p1) Mock.p2 time.Hour
      (Mock.at_second 100) = Some (h', ks') ∧
    Keyset_ok h' ks'.
Proof.
  destruct (Keyset_ok_preserved Mock.store (NewKeysetWithKey Mock.p1))
    as [Hrot _].
  { repeat constructor; vm_compute; eauto. }
  apply Hrot. vm_compute. eauto.
Defined.

(** ** RotateIn, then the other operations *)

Lemma RotateIn_front (h : heap) (ks : Keyset) (key p0 : ptr) (k0 : Key)
    (expireAfter : time.Duration) (now : time.Time) :
  keys ks !! 0%nat = Some p0 → deref h p0 = Some k0 →
  ∃ l0 rest,
    p0 = Some l0 ∧ keys ks = p0 :: rest ∧
    RotateIn h ks key expireAfter now =
      Some (<[l0 := set_ExpiresUnix k0
                      (time.Unix (time.Add now expireAfter))]> h,
            set_keys ks (key :: p0 :: rest)).
Proof.
  intros Hp0 (l0 & -> & Hl0)%deref_Some.
  destruct (keys ks) as [|p rest] eqn:Hk; [done|]. injection Hp0 as ->.
  exists l0, rest. split; [done|]. split; [done|].
  by apply RotateIn_cons.
Qed.

Lemma expired_set_ExpiresUnix (k : Key) (stamp now : Z) :
  expired (set_ExpiresUnix k stamp) now
    = bool_decide (stamp > 0) && bool_decide (stamp < now).
Proof. done. Qed.

(** X13. After a rotation, encryption is under the new key: when the key
    rotated in is a live key other than the one that was at index 0 and is
    not expired, [Encrypt] hands it, and it alone, to the cipher, whatever
    the keyset held and whatever [expireAfter] was. *)
Theorem RotateIn_Encrypt `{C : GoCrypto} (h : heap) (ks : Keyset)
    (key : ptr) (K : Key) (expireAfter : time.Duration)
    (now t : time.Time) (rnd : entropy) (val : bytes) :
  Keyset_ok h ks →
  deref h key = Some K →
  keys ks !! 0%nat ≠ Some key →
  expired K (time.Unix t) = false →
  ∃ h' ks',
    RotateIn h ks key expireAfter now = Some (h', ks') ∧
    Keyset_Encrypt h' ks' rnd t val
      = Some ([key], Encrypt rnd val (Value K)).
Proof.
  intros Hok HK Hne He.
  assert (∀ h' rest,
    deref h' key = Some K →
    Keyset_Encrypt h' (set_keys ks (key :: rest)) rnd t val
      = Some ([key], Encrypt rnd val (Value K))) as Henc.
  { intros h' rest HK'. unfold Keyset_Encrypt; simpl.
    rewrite HK'. simpl. by rewrite He. }
  destruct (keys ks) as [|p0 rest] eqn:Hk.
  - eexists _, _. split; [by apply RotateIn_empty|]. by apply Henc.
  - destruct (Keyset_ok_head h ks p0 Hok) as [k0 Hk0]; [by rewrite Hk|].
    destruct (RotateIn_front h ks key p0 k0 expireAfter now)
      as (l0 & rest' & -> & _ & ->); [by rewrite Hk | done |].
    eexists _, _. split; [done|]. apply Henc.
    rewrite deref_insert_ne; [done|]. intros ->. by apply Hne.
Qed.

Lemma RotateIn_Encrypt_witness :
  ∃ h' ks',
    RotateIn Mock.store (NewKeysetWithKey Mock.p1) Mock.p2 time.Hour
      (Mock.at_second 100) = Some (h', ks') ∧
    Keyset_Encrypt (C := Mock.crypto) h' ks' Mock.zeros (Mock.at_second 100)
      Mock.hello
    = Some ([Mock.p2],
            Encrypt (C := Mock.crypto) Mock.zeros Mock.hello
              (Value Mock.K2)).
Proof.
  apply (RotateIn_Encrypt (C := Mock.crypto) Mock.store
           (NewKeysetWithKey Mock.p1) Mock.p2 Mock.K2 time.Hour
           (Mock.at_second 100) (Mock.at_second 100) Mock.zeros Mock.hello).
  - repeat constructor; vm_compute; eauto.
  - reflexivity.
  - discriminate.
  - reflexivity.
Defined.

Section Grace.
Context `{C : GoCrypto}.

(** What [Decrypt] does on a keyset that starts with a new key that does not
    open the value and the key just retired. *)
Lemma Decrypt_range_two (h : heap) (now : Z) (val : bytes) (key p0 : ptr)
    (K k0 : Key) (rest : list ptr) :
  deref h key = Some K → deref h p0 = Some k0 →
  (∀ res, Decrypt val (Value K) ≠ Ok res) →
  Decrypt_range h now val (key :: p0 :: rest)
    = if expired k0 now
      then '(tried, r) ← Decrypt_range h now val rest;
           Some ((if expired K now then [] else [key]) ++ tried, r)
      else match Decrypt val (Value k0) with
           | Ok res =>
               Some ((if expired K now then [] else [key]) ++ [p0], Ok res)
           | Err _ =>
               '(tried, r) ← Decrypt_range h now val rest;
               Some ((if expired K now then [] else [key]) ++ p0 :: tried, r)
           end.
Proof.
  intros HK Hk0 Hrej. simpl. rewrite HK, Hk0. simpl.
  destruct (expired K now), (expired k0 now); simpl.
  - by destruct (Decrypt_range h now val rest) as [[??]|].
  - destruct (Decrypt val (Value k0)); [done|].
    by destruct (Decrypt_range h now val rest) as [[??]|].
  - destruct (Decrypt val (Value K)) as [res|e] eqn:HD;
      [by destruct (Hrej res)|].
    by destruct (Decrypt_range h now val rest) as [[??]|].
  - destruct (Decrypt val (Value K)) as [res|e] eqn:HD;
      [by destruct (Hrej res)|].
    destruct (Decrypt val (Value k0)); [done|].
    by destruct (Decrypt_range h now val rest) as [[??]|].
Qed.
End Grace.

(** X14. The grace period. After a rotation, a value that the key retired by
    it opens is still decrypted by the keyset at every time whose second is
    not after the stamp [Unix (now + expireAfter)] the key was given (and at
    every time at all when that stamp is not positive): [Decrypt] passes the
    new key, which does not open the value, and stops at the retired one.
    The older keys of the keyset are not looked at, live or not. *)
Theorem RotateIn_grace `{C : GoCrypto} (h : heap) (ks : Keyset)
    (key p0 : ptr) (K k0 : Key) (expireAfter : time.Duration)
    (now t : time.Time) (c P : bytes) :
  keys ks !! 0%nat = Some p0 →
  deref h p0 = Some k0 →
  deref h key = Some K →
  key ≠ p0 →
  Decrypt c (Value k0) = Ok P →
  (∀ res, Decrypt c (Value K) ≠ Ok res) →
  (time.Unix (time.Add now expireAfter) ≤ 0 ∨
   time.Unix t ≤ time.Unix (time.Add now expireAfter)) →
  ∃ h' ks',
    RotateIn h ks key expireAfter now = Some (h', ks') ∧
    Keyset_Decrypt h' ks' t c
      = Some ((if expired K (time.Unix t) then [] else [key]) ++ [p0], Ok P).
Proof.
  intros Hp0 Hk0 HK Hne Hopen Hrej Hwin.
  destruct (RotateIn_front h ks key p0 k0 expireAfter now Hp0 Hk0)
    as (l0 & rest & -> & _ & ->).
  eexists _, _. split; [done|]. unfold Keyset_Decrypt. cbn [keys set_keys].
  erewrite Decrypt_range_two;
    [|by rewrite deref_insert_ne|apply deref_insert_eq|done].
  rewrite expired_set_ExpiresUnix.
  destruct Hwin.
  - rewrite (bool_decide_false (_ > 0)) by lia. simpl. by rewrite Hopen.
  - rewrite (bool_decide_false (_ < _)) by lia. rewrite andb_false_r.
    simpl. by rewrite Hopen.
Qed.

Lemma RotateIn_grace_witness :
  ∃ h' ks',
    RotateIn Mock.store (NewKeysetWithKey Mock.p2) Mock.p1 time.Hour
      (Mock.at_second 100) = Some (h', ks') ∧
    Keyset_Decrypt (C := Mock.crypto) h' ks' (Mock.at_second 3700)
      Mock.letter = Some ([Mock.p1; Mock.p2], Ok Mock.hello).
Proof.
  apply (RotateIn_grace (C := Mock.crypto) Mock.store
           (NewKeysetWithKey Mock.p2) Mock.p1 Mock.p2 Mock.K1 Mock.K2
           time.Hour (Mock.at_second 100) (Mock.at_second 3700)
           Mock.letter Mock.hello).
  - reflexivity.
  - reflexivity.
  - reflexivity.
  - discriminate.
  - reflexivity.
  - intros res. vm_compute. discriminate.
  - right. vm_compute. discriminate.
Defined.

(** X15. The end of the grace period. When a rotation retires the only key
    of a keyset with a positive stamp, then at every time whose second is
    after the stamp a value that only the retired key opens is refused with
    [NoValidDecryptionKeyError], and the retired key is not tried. *)
Theorem RotateIn_grace_over `{C : GoCrypto} (h : heap) (ks : Keyset)
    (key p0 : ptr) (K k0 : Key) (expireAfter : time.Duration)
    (now t : time.Time) (c : bytes) :
  keys ks = [p0] →
  deref h p0 = Some k0 →
  deref h key = Some K →
  key ≠ p0 →
  (∀ res, Decrypt c (Value K) ≠ Ok res) →
  0 < time.Unix (time.Add now expireAfter) →
  time.Unix (time.Add now expireAfter) < time.Unix t →
  ∃ h' ks',
    RotateIn h ks key expireAfter now = Some (h', ks') ∧
    Keyset_Decrypt h' ks' t c
      = Some (if expired K (time.Unix t) then [] else [key],
              Err NoValidDecryptionKeyError).
Proof.
  intros Hk Hk0 HK Hne Hrej Hpos Hlate.
  destruct (RotateIn_front h ks key p0 k0 expireAfter now)
    as (l0 & rest & -> & Hrest & ->); [by rewrite Hk | done |].
  rewrite Hk in Hrest. injection Hrest as <-.
  eexists _, _. split; [done|]. unfold Keyset_Decrypt. cbn [keys set_keys].
  erewrite Decrypt_range_two;
    [|by rewrite deref_insert_ne|apply deref_insert_eq|done].
  rewrite expired_set_ExpiresUnix, !bool_decide_true by lia. simpl.
  by rewrite app_nil_r.
Qed.

Lemma RotateIn_grace_over_witness :
  Decrypt (C := Mock.crypto) Mock.letter (Value Mock.K2) = Ok Mock.hello ∧
  ∃ h' ks',
    RotateIn Mock.store (NewKeysetWithKey Mock.p2) Mock.p1 time.Hour
      (Mock.at_second 100) = Some (h', ks') ∧
    Keyset_Decrypt (C := Mock.crypto) h' ks' (Mock.at_second 3701)
      Mock.letter = Some ([Mock.p1], Err NoValidDecryptionKeyError).
Proof.
  split; [reflexivity|].
  apply (RotateIn_grace_over (C := Mock.crypto) Mock.store
           (NewKeysetWithKey Mock.p2) Mock.p1 Mock.p2 Mock.K1 Mock.K2
           time.Hour (Mock.at_second 100) (Mock.at_second 3701)
           Mock.letter).
  - reflexivity.
  - reflexivity.
  - reflexivity.
  - discriminate.
  - intros res. vm_compute. discriminate.
  - reflexivity.
  - reflexivity.
Defined.

(** X16. Two rotations in a row. The keyset then starts with the second new
    key and the first new key, before the keys it had; the first new key,
    retired by the second rotation, carries the stamp of the second
    rotation, and the key retired by the first rotation keeps the stamp of
    the first. *)
Theorem RotateIn_twice (h : heap) (ks : Keyset) (p0 a b : ptr)
    (k0 Ka : Key) (d1 d2 : time.Duration) (now1 now2 : time.Time) :
  keys ks !! 0%nat = Some p0 →
  deref h p0 = Some k0 →
  deref h a = Some Ka →
  a ≠ p0 →
  ∃ h1 ks1 h2 ks2,
    RotateIn h ks a d1 now1 = Some (h1, ks1) ∧
    RotateIn h1 ks1 b d2 now2 = Some (h2, ks2) ∧
    keys ks2 = b :: a :: keys ks ∧
    deref h2 a = Some (set_ExpiresUnix Ka (time.Unix (time.Add now2 d2))) ∧
    deref h2 p0 = Some (set_ExpiresUnix k0 (time.Unix (time.Add now1 d1))).
Proof.
  intros Hp0 Hk0 Ha Hne.
  destruct (RotateIn_front h ks a p0 k0 d1 now1 Hp0 Hk0)
    as (l0 & rest & -> & Hk & Hr1).
  match type of Hr1 with _ = Some (?m, ?s) =>
    set (h1 := m) in *; set (ks1 := s) in * end.
  assert (deref h1 a = Some Ka) as Ha1
    by (unfold h1; by rewrite deref_insert_ne).
  destruct (RotateIn_front h1 ks1 b a Ka d2 now2 eq_refl Ha1)
    as (la & rest' & -> & Hk1 & Hr2).
  eexists _, _, _, _. split; [exact Hr1|]. split; [exact Hr2|].
  injection Hk1 as <-.
  split; [by rewrite Hk|]. split; [apply deref_insert_eq|].
  rewrite deref_insert_ne by done. apply deref_insert_eq.
Qed.

Lemma RotateIn_twice_witness :
  ∃ h1 ks1 h2 ks2,
    RotateIn Mock.store (NewKeysetWithKey Mock.p1) Mock.p2 time.Hour
      (Mock.at_second 100) = Some (h1, ks1) ∧
    RotateIn h1 ks1 Mock.p3 (2 * time.Hour) (Mock.at_second 200)
      = Some (h2, ks2) ∧
    keys ks2 = [Mock.p3; Mock.p2; Mock.p1] ∧
    ExpiresUnix <$> deref h2 Mock.p2 = Some 7400 ∧
    ExpiresUnix <$> deref h2 Mock.p1 = Some 3700.
Proof.
  destruct (RotateIn_twice Mock.store (NewKeysetWithKey Mock.p1) Mock.p1
              Mock.p2 Mock.p3 Mock.K1 Mock.K2 time.Hour (2 * time.Hour)
              (Mock.at_second 100) (Mock.at_second 200))
    as (h1 & ks1 & h2 & ks2 & Hr1 & Hr2 & Hkeys & Ha & Hp0);
    [reflexivity | reflexivity | reflexivity | discriminate |].
  exists h1, ks1, h2, ks2. split; [done|]. split; [done|].
  split; [done|]. rewrite Ha, Hp0. split; reflexivity.
Defined.

(** X17. Retiring and purging. After a rotation that gives the retired key a
    positive stamp, a purge at any time whose second is after the stamp
    removes that key from the keyset; and when the key rotated in is another
    object and is not expired then, it is the key at index 0 of what the
    purge leaves. *)
Theorem RotateIn_Purge (h : heap) (ks : Keyset) (key p0 : ptr) (K : Key)
    (expireAfter : time.Duration) (now t : time.Time) :
  Keyset_ok h ks →
  keys ks !! 0%nat = Some p0 →
  deref h key = Some K →
  0 < time.Unix (time.Add now expireAfter) →
  time.Unix (time.Add now expireAfter) < time.Unix t →
  ∃ h' ks' ks'',
    RotateIn h ks key expireAfter now = Some (h', ks') ∧
    Purge h' ks' t = Some ks'' ∧
    (p0 ∉ keys ks'') ∧
    (key ≠ p0 → expired K (time.Unix t) = false →
     keys ks'' !! 0%nat = Some key).
Proof.
  intros Hok Hp0 HK Hpos Hlate.
  destruct (Keyset_ok_head h ks p0 Hok Hp0) as [k0 Hk0].
  destruct (RotateIn_front h ks key p0 k0 expireAfter now Hp0 Hk0)
    as (l0 & rest & -> & Hk & Hrun).
  match type of Hrun with _ = Some (?m, ?s) =>
    set (h' := m) in *; set (ks' := s) in * end.
  assert (Keyset_ok h' ks') as Hok'
    by (apply (RotateIn_Keyset_ok h h' ks ks' key expireAfter now);
        [done | by exists K | done]).
  assert (unexpired h' (time.Unix t) (Some l0) = false) as Hexp.
  { unfold unexpired, h'. rewrite deref_insert_eq, expired_set_ExpiresUnix.
    by rewrite !bool_decide_true by lia. }
  exists h', ks'. eexists. split; [done|].
  split; [by apply Purge_filter|]. unfold ks'. cbn [keys set_keys]. split.
  - intros [Hin _]%list_elem_of_filter. by rewrite Hexp in Hin.
  - intros Hne He. rewrite filter_cons_True; [done|].
    unfold unexpired, h'. rewrite deref_insert_ne by done.
    by rewrite HK, He.
Qed.

Lemma RotateIn_Purge_witness :
  ∃ h' ks' ks'',
    RotateIn Mock.store (NewKeysetWithKey Mock.p1) Mock.p2 (- time.Hour)
      (Mock.at_second 7200) = Some (h', ks') ∧
    Purge h' ks' (Mock.at_second 7200) = Some ks'' ∧
    keys ks'' = [Mock.p2].
Proof.
  destruct (RotateIn_Purge Mock.store (NewKeysetWithKey Mock.p1) Mock.p2
              Mock.p1 Mock.K2 (- time.Hour) (Mock.at_second 7200)
              (Mock.at_second 7200))
    as (h' & ks' & ks'' & Hrun & Hpurge & _ & _).
  - repeat constructor; vm_compute; eauto.
  - reflexivity.
  - reflexivity.
  - reflexivity.
  - reflexivity.
  - exists h', ks', ks''. split; [done|]. split; [done|].
    vm_compute in Hrun. injection Hrun as <- <-.
    vm_compute in Hpurge. by injection Hpurge as <-.
Defined.

(** X18. [Decrypt] stops at the first key that opens the value and does not
    look at what comes after it: with live keys before, each expired or
    rejecting the value, and then an unexpired key that opens it, the answer
    is that key's plaintext whatever follows in the keyset, be it nil. *)
Theorem Keyset_Decrypt_short_circuit `{C : GoCrypto} (h : heap)
    (ks : Keyset) (now : time.Time) (val res : bytes)
    (before after : list ptr) (p : ptr) (k : Key) :
  keys ks = before ++ p :: after →
  Forall (live h) before →
  Forall (λ q, unexpired h (time.Unix now) q = true → rejects h val q)
    before →
  deref h p = Some k →
  expired k (time.Unix now) = false →
  Decrypt val (Value k) = Ok res →
  Keyset_Decrypt h ks now val
    = Some (filter (λ q, unexpired h (time.Unix now) q) before ++ [p],
            Ok res).
Proof.
  intros Hks Hlive Hrej Hk He Hopen. unfold Keyset_Decrypt. rewrite Hks.
  clear Hks.
  induction Hlive as [|q before [kq Hq] _ IH]; simpl.
  - rewrite Hk. simpl. by rewrite He, Hopen.
  - apply Forall_cons in Hrej as [Hq' Hrej]. rewrite Hq. simpl.
    destruct (expired kq (time.Unix now)) eqn:Heq.
    + rewrite filter_cons_False; [by apply IH|].
      unfold unexpired. rewrite Hq, Heq. simpl. tauto.
    + assert (unexpired h (time.Unix now) q = true) as Hu
        by (unfold unexpired; by rewrite Hq, Heq).
      rewrite filter_cons_True by by rewrite Hu.
      destruct (Hq' Hu) as (kq' & e & Hq'' & Hd).
      assert (kq' = kq) as -> by congruence.
      rewrite Hd, (IH Hrej). done.
Qed.

Lemma Keyset_Decrypt_short_circuit_witness :
  Keyset_Decrypt (C := Mock.crypto) Mock.store
    (mkKeyset [Mock.p1; Mock.p2; nil_ptr] 0) (Mock.at_second 100)
    Mock.letter = Some ([Mock.p1; Mock.p2], Ok Mock.hello) ∧
  Keyset_Decrypt (C := Mock.crypto) Mock.store
    (mkKeyset [nil_ptr; Mock.p1; Mock.p2] 0) (Mock.at_second 100)
    Mock.letter = None.
Proof.
  split; [|reflexivity].
  apply (Keyset_Decrypt_short_circuit (C := Mock.crypto) Mock.store
           (mkKeyset [Mock.p1; Mock.p2; nil_ptr] 0) (Mock.at_second 100)
           Mock.letter Mock.hello [Mock.p1] [nil_ptr] Mock.p2 Mock.K2).
  - reflexivity.
  - repeat constructor. vm_compute. eauto.
  - repeat constructor. intros _. exists Mock.K1. eexists.
    split; vm_compute; reflexivity.
  - reflexivity.
  - reflexivity.
  - reflexivity.
Defined.

(** X19. The round trip after a rotation. With a standard library that
    keeps its contract, once a live key of a size AES takes, other than the
    key that was at index 0, has been rotated in, the keyset encrypts every
    plaintext under it and decrypts the result at the first try, as long as
    that key is not expired. *)
Theorem RotateIn_roundtrip `{C : GoCrypto} {L : GoCryptoLaws C}
    (h : heap) (ks : Keyset) (key : ptr) (K : Key)
    (expireAfter : time.Duration) (now t1 t2 : time.Time)
    (stream : nat → byte) (P : bytes) :
  Keyset_ok h ks →
  deref h key = Some K →
  keys ks !! 0%nat ≠ Some key →
  length (Value K) ∈ [16; 24; 32]%nat →
  expired K (time.Unix t1) = false →
  expired K (time.Unix t2) = false →
  ∃ h' ks' c,
    RotateIn h ks key expireAfter now = Some (h', ks') ∧
    Keyset_Encrypt h' ks' (inr stream) t1 P = Some ([key], Ok c) ∧
    Keyset_Decrypt h' ks' t2 c = Some ([key], Ok P).
Proof.
  intros Hok HK Hne Hlen He1 He2.
  destruct (Decrypt_Encrypt stream P (Value K) Hlen) as (c & Henc & Hdec).
  assert (∀ h' rest,
    deref h' key = Some K →
    Keyset_Encrypt h' (set_keys ks (key :: rest)) (inr stream) t1 P
      = Some ([key], Ok c) ∧
    Keyset_Decrypt h' (set_keys ks (key :: rest)) t2 c
      = Some ([key], Ok P)) as Hboth.
  { intros h' rest HK'. unfold Keyset_Encrypt, Keyset_Decrypt; simpl.
    rewrite HK'. simpl. by rewrite He1, He2, Henc, Hdec. }
  destruct (keys ks) as [|p0 rest] eqn:Hk.
  - eexists _, _, c. split; [by apply RotateIn_empty|]. by apply Hboth.
  - destruct (Keyset_ok_head h ks p0 Hok) as [k0 Hk0]; [by rewrite Hk|].
    destruct (RotateIn_front h ks key p0 k0 expireAfter now)
      as (l0 & rest' & -> & _ & ->); [by rewrite Hk | done |].
    eexists _, _, c. split; [done|]. apply Hboth.
    rewrite deref_insert_ne; [done|]. intros ->. by apply Hne.
Qed.

Lemma RotateIn_roundtrip_witness :
  ∃ h' ks' c,
    RotateIn Mock.store (NewKeysetWithKey Mock.p1) Mock.p2 time.Hour
      (Mock.at_second 100) = Some (h', ks') ∧
    Keyset_Encrypt (C := Mock.crypto) h' ks' Mock.zeros (Mock.at_second 200)
      Mock.hello = Some ([Mock.p2], Ok c) ∧
    Keyset_Decrypt (C := Mock.crypto) h' ks' (Mock.at_second 300) c
      = Some ([Mock.p2], Ok Mock.hello).
Proof.
  apply (RotateIn_roundtrip (L := Mock_laws) Mock.store
           (NewKeysetWithKey Mock.p1) Mock.p2 Mock.K2 time.Hour
           (Mock.at_second 100) (Mock.at_second 200) (Mock.at_second 300)
           (λ _, Byte.x00) Mock.hello).
  - repeat constructor; vm_compute; eauto.
  - reflexivity.
  - discriminate.
  - vm_compute. set_solver.
  - reflexivity.
  - reflexivity.
Defined.
